(** * Source data of the sparse autoencoder: collators and streaming loader

    A shallow embedding of [sparse_autoencoder/src_model/src_data.py]:
    the two collate functions and [create_dataloader], with the tensor
    constructors, the tokenizer, the dataset stream and the batching loader
    they call modelled as far as the collators and the factory observe
    them. *)

From stdpp Require Import base tactics option list numbers strings gmap.

Set Warnings "-register-all".

Open Scope Z_scope.
Open Scope string_scope.
Open Scope list_scope.

(** ** Python values, records and exceptions *)

(** The data a dataset record holds: text, integers and lists of these.
    An integer is a Python [int], of any size. *)
Inductive value : Type :=
| VStr (s : string)
| VInt (z : Z)
| VList (l : list value).

(** A record of the dataset stream is a [dict] with string keys. *)
Abbreviation record := (gmap string value).

(** The exceptions that the modelled calls raise. *)
Inductive exn : Type :=
| KeyError (key : string)
  (* torch.tensor: "expected sequence of length [expected] at dim [dim]
     (got [got])" *)
| ValueError_sequence_length (expected dim got : nat)
  (* torch.tensor on text or on too deep a nesting: "too many
     dimensions" *)
| ValueError_too_many_dimensions
  (* torch.tensor on text below the first element: "invalid data type
     'str'" *)
| TypeError_invalid_data_type
  (* torch.tensor on an integer outside 64 bits: "Overflow when unpacking
     long" *)
| RuntimeError_overflow
  (* torch.tensor on a list where a number is expected, or the converse *)
| TypeError_not_a_sequence
| TypeError_not_a_number
  (* load_dataset *)
| DatasetNotFoundError (name : string)
| ValueError_bad_split (split : string)
  (* dataset.shuffle: the generator refuses a negative seed *)
| ValueError_seed (seed : Z)
  (* DataLoader *)
| ValueError_num_workers (n : Z)
| ValueError_batch_size (n : Z)
  (* whatever a tokenizer raises *)
| TokenizerError (code : Z).

Inductive result (A : Type) : Type :=
| Ok (a : A)
| Raise (e : exn).
Arguments Ok {A} a.
Arguments Raise {A} e.

Global Instance result_ret : MRet result := λ A a, Ok a.
Global Instance result_bind : MBind result := λ A B f m,
  match m with
  | Ok a => f a
  | Raise e => Raise e
  end.
Global Instance result_fmap : FMap result := λ A B f m,
  match m with
  | Ok a => Ok (f a)
  | Raise e => Raise e
  end.

(** [r[key]]: a missing key raises [KeyError]. *)
Definition getitem (key : string) (r : record) : result value :=
  match r !! key with
  | Some v => Ok v
  | None => Raise (KeyError key)
  end.

(** ** Tensors *)

(** A tensor is its sizes and its elements in row-major order. *)
Record Tensor : Type := mkTensor {
  shape : list nat;
  data : list Z;
}.

Definition ndim (t : Tensor) : nat := length (shape t).

(** The number of elements that sizes stand for, [math.prod(sizes)]. *)
Definition size_product (sizes : list nat) : nat := foldr Nat.mul 1%nat sizes.

(** The rows of a matrix, [t.tolist()]: [data] cut into [shape[0]] runs
    of [shape[1]] elements; [None] when the tensor is not 2-D. *)
Fixpoint rows_of (n len : nat) (d : list Z) : list (list Z) :=
  match n with
  | O => []
  | S n' => take len d :: rows_of n' len (drop len d)
  end.

Definition tolist2 (t : Tensor) : option (list (list Z)) :=
  match shape t with
  | [n; len] => Some (rows_of n len (data t))
  | _ => None
  end.

(** The integers that an element of a tensor of 64-bit integers holds. *)
Definition int64 (z : Z) : Prop := (- 2 ^ 63 ≤ z < 2 ^ 63)%Z.

Global Instance int64_dec (z : Z) : Decision (int64 z).
Proof. unfold int64. apply _. Defined.

(** The element types that the constructor infers: the default floating
    type (for data without elements) and 64-bit integers. *)
Inductive scalar_type : Type := Float | Long.

Definition promote (a b : scalar_type) : scalar_type :=
  match a, b with
  | Long, Long => Long
  | _, _ => Float
  end.

(** The largest number of sizes a tensor is built with. *)
Definition MAX_DIMS : nat := 128.

(** Modelled from the spec: the tensor constructor [torch.tensor(data)] on
    nested lists (the tensor library's, not in this repository), which
    stacks the sequences as they are and refuses sequences of different
    lengths.  The sizes are read off the first element at each depth (a
    text is a sequence of texts, so one that is not empty never ends);
    the element type is inferred from all the data; and, unless the sizes
    leave the tensor without elements, every sequence is stored against
    the sizes, each integer having to fit 64 bits. *)
Fixpoint compute_sizes (v : value) : result (list nat) :=
  match v with
  | VInt _ => Ok []
  | VStr s =>
      match s with
      | EmptyString => Ok [0%nat]
      | _ => Raise ValueError_too_many_dimensions
      end
  | VList l =>
      match l with
      | [] => Ok [0%nat]
      | x :: _ => sizes ← compute_sizes x; Ok (length l :: sizes)
      end
  end.

(** Modelled from the spec: the constructor's pass that infers the element
    type; it reads every element, and refuses a text. *)
Fixpoint infer_scalar_type (v : value) : result scalar_type :=
  match v with
  | VInt _ => Ok Long
  | VStr _ => Raise TypeError_invalid_data_type
  | VList l =>
      ts ← mapM infer_scalar_type l;
      Ok (match ts with [] => Float | _ => foldr promote Long ts end)
  end.

(** Modelled from the spec: the constructor's pass that stores the
    elements: a sequence has to have the length that the sizes give at
    its depth, and an integer has to fit 64 bits. *)
Fixpoint recursive_store (dim : nat) (sizes : list nat) (v : value)
    : result (list Z) :=
  match sizes with
  | [] =>
      match v with
      | VInt z => if decide (int64 z) then Ok [z] else Raise RuntimeError_overflow
      | _ => Raise TypeError_not_a_number
      end
  | n :: sizes' =>
      match v with
      | VList l =>
          if decide (length l = n) then
            @concat Z <$> mapM (recursive_store (S dim) sizes') l
          else Raise (ValueError_sequence_length n dim (length l))
      | _ => Raise TypeError_not_a_sequence
      end
  end.

(** Modelled from the spec: [torch.tensor(data)].  The elements are
    stored only when the sizes leave the tensor some: with a size of 0
    the sequences after the first are not compared with it. *)
Definition torch_tensor (v : value) : result Tensor :=
  sizes ← compute_sizes v;
  if decide (MAX_DIMS < length sizes)%nat
  then Raise ValueError_too_many_dimensions
  else
    _ ← infer_scalar_type v;
    if decide (size_product sizes = 0%nat) then Ok (mkTensor sizes [])
    else d ← recursive_store 0 sizes v; Ok (mkTensor sizes d).

(** Modelled from the spec: [torch.ones_like(t)] (the tensor library's):
    the sizes of [t], every element 1. *)
Definition torch_ones_like (t : Tensor) : Tensor :=
  mkTensor (shape t) ((λ _, 1) <$> data t).

(** ** The pretokenized collator *)

Definition collate_neel_c4_tokenized (batch : list record)
    : result (Tensor * Tensor) :=
  tokens ← mapM (getitem "tokens") batch;
  tokenized ← torch_tensor (VList tokens);
  let mask := torch_ones_like tokenized in
  Ok (tokenized, mask).

(** ** The raw-text collator *)

(** What [tokenizer(...)] returns: the fields the collator reads. *)
Record BatchEncoding : Type := mkBatchEncoding {
  input_ids : Tensor;
  attention_mask : Tensor;
}.

(** The arguments of one call [tokenizer(text, return_tensors=...,
    padding=..., truncation=..., max_length=...)]. *)
Record tokenizer_call : Type := mkCall {
  text : list value;
  return_tensors : string;
  padding : bool;
  truncation : bool;
  max_length : Z;
}.

(** The tokenizer is an object of the caller's: a padding id and a call
    that may raise and may change the object's own state [St]. *)
Record Tokenizer (St : Type) : Type := mkTokenizer {
  pad_token_id : Z;
  tokenize : St → tokenizer_call → result BatchEncoding * St;
}.
Arguments mkTokenizer {St} _ _.
Arguments pad_token_id {St} _.
Arguments tokenize {St} _ _ _.

(** Computations that may raise and that thread the tokenizer's state. *)
Definition eff (St A : Type) : Type := St → result A * St.

Global Instance eff_ret St : MRet (eff St) := λ A a s, (Ok a, s).
Global Instance eff_bind St : MBind (eff St) := λ A B f m s,
  match m s with
  | (Ok a, s') => f a s'
  | (Raise e, s') => (Raise e, s')
  end.

Definition lift {St A} (r : result A) : eff St A := λ s, (r, s).

Definition call {St} (tokenizer : Tokenizer St) (c : tokenizer_call)
    : eff St BatchEncoding :=
  λ s, tokenize tokenizer s c.

Definition collate_pile {St} (batch : list record) (tokenizer : Tokenizer St)
    : eff St (Tensor * Tensor) :=
  texts ← lift (mapM (getitem "text") batch);
  tokenized ← call tokenizer
    {| text := texts; return_tensors := "pt"; padding := true;
       truncation := true; max_length := 512 |};
  mret (input_ids tokenized, attention_mask tokenized).

(** A tokenizer wrapped so that every call it receives is appended to a
    log kept next to its state. *)
Definition recording {St} (tokenizer : Tokenizer St)
    : Tokenizer (St * list tokenizer_call) :=
  {| pad_token_id := pad_token_id tokenizer;
     tokenize := λ '(s, log) c,
       let '(r, s') := tokenize tokenizer s c in (r, (s', log ++ [c])) |}.

(** The contract the tokenizer capability is taken to meet on one
    encoding: ids and mask of one shape, a row per input text, and the
    padding id wherever the mask is 0. *)
Record encoding_padded (pad : Z) (n : nat) (ids mask : Tensor) : Prop := {
  padded_shape : shape ids = shape mask;
  padded_aligned : head (shape ids) = Some n;
  padded_positions : ∀ p, data mask !! p = Some 0 → data ids !! p = Some pad;
}.

(** A test double: a byte-level tokenizer without state.  Each text
    becomes the codes of its characters, cut at [max_length] when
    truncation is on and filled up to the longest row with the padding
    id. *)
Definition encode (s : string) : list Z :=
  (λ a, Z.of_N (Ascii.N_of_ascii a)) <$> String.list_ascii_of_string s.

Definition as_text (v : value) : result string :=
  match v with
  | VStr s => Ok s
  | _ => Raise (TokenizerError 1)
  end.

Definition byte_encoding (pad : Z) (c : tokenizer_call)
    : result BatchEncoding :=
  strs ← mapM as_text (text c);
  let seqs := encode <$> strs in
  let seqs :=
    if truncation c then take (Z.to_nat (max_length c)) <$> seqs else seqs in
  let width := max_list (length <$> seqs) in
  let pad_to (x : Z) (l : list Z) := l ++ replicate (width - length l) x in
  let ids := pad_to pad <$> seqs in
  let mask := (λ l, pad_to 0 ((λ _, 1) <$> l)) <$> seqs in
  Ok {| input_ids := mkTensor [length seqs; width] (concat ids);
        attention_mask := mkTensor [length seqs; width] (concat mask) |}.

Definition byte_tokenizer (pad : Z) : Tokenizer unit :=
  {| pad_token_id := pad;
     tokenize := λ s c, (byte_encoding pad c, s) |}.

(** A row of token ids as the list a record holds. *)
Definition int_row (row : list Z) : value := VList (VInt <$> row).

Definition tokens_record (toks : list Z) : record :=
  {[ "tokens" := int_row toks ]}.

Definition text_record (s : string) : record :=
  {[ "text" := VStr s ]}.

(** ** The streaming loader *)

(** Modelled from the spec: the random-number generator that the shuffle
    owns (the generator implementation is the dataset library's and is not
    in this repository).  A generator is made from an integer seed; a draw
    from [0, high) returns the drawn index and the advanced generator. *)
Class RandomGenerator (G : Type) : Type := {
  default_rng : Z → G;
  integers : G → nat → nat * G;
  integers_lt : ∀ g high, (0 < high)%nat → ((integers g high).1 < high)%nat;
}.

(** A generator to run examples with: a 64-bit linear congruential one. *)
Definition lcg_step (g : Z) : Z :=
  (6364136223846793005 * g + 1442695040888963407) `mod` 2 ^ 64.

Global Instance lcg : RandomGenerator Z.
Proof.
  refine {| default_rng := λ seed, seed `mod` 2 ^ 64;
            integers := λ g high,
              let g' := lcg_step g in
              (Z.to_nat ((g' `div` 2 ^ 33) `mod` Z.of_nat high), g') |}.
  intros g high Hhigh. simpl.
  pose proof (Z.mod_pos_bound (lcg_step g `div` 2 ^ 33) (Z.of_nat high)).
  lia.
Defined.

(** Modelled from the spec: grouping into batches of the configured size
    (the batching is the loader library's).  Records are collected until
    the batch is full; when the stream ends, a batch that has at least one
    record is emitted as it is. *)
Fixpoint batches_from {X} (batch_size : nat) (current : list X)
    (stream : list X) : list (list X) :=
  match stream with
  | [] => match current with [] => [] | _ => [current] end
  | x :: stream' =>
      let current' := current ++ [x] in
      if decide (length current' = batch_size)
      then current' :: batches_from batch_size [] stream'
      else batches_from batch_size current' stream'
  end.

Definition batches {X} (batch_size : nat) (stream : list X) : list (list X) :=
  batches_from batch_size [] stream.

(** In a run of batches only the last may be shorter than [bs]. *)
Definition only_last_shorter {X} (bs : nat) (bl : list (list X)) : Prop :=
  ∀ i b, bl !! i = Some b → (S i < length bl)%nat → length b = bs.

(** The batches of a run that are shorter than [bs]. *)
Definition short_batches {X} (bs : nat) (bl : list (list X)) : list (list X) :=
  filter (λ b, (length b < bs)%nat) bl.

(** Modelled from the spec: the worker pool (the loader library's).  The
    shards of the stream are dealt to the workers in turn, each worker
    makes complete batches of its own, and the batches are handed over in
    rotation, a worker that has run out being passed over. *)
Definition worker_shards {X} (num_workers worker_id : nat) (l : list X)
    : list X :=
  omap (λ '(i, s),
          if decide (i `mod` num_workers = worker_id)%nat then Some s else None)
       (imap pair l).

(** Modelled from the spec: the rotation over the workers' batches. *)
Fixpoint rounds {X} (n : nat) (queues : list (list X)) : list X :=
  match n with
  | O => []
  | S n' => omap head queues ++ rounds n' (tail <$> queues)
  end.

Definition round_robin {X} (queues : list (list X)) : list X :=
  rounds (max_list (length <$> queues)) queues.

(** Modelled from the spec: the dataset stream capability (the dataset
    library's): a lazy sequence of records, possibly in several shards,
    that [shuffle] turns into a lazy reservoir-shuffled one.  A shuffle
    without a seed seeds its generator from the entropy of the run. *)
Record IterableDataset (A : Type) : Type := mkDataset {
  shards : list (list A);
  shuffling : option (option Z * positive);
}.
Arguments mkDataset {A} _ _.
Arguments shards {A} _.
Arguments shuffling {A} _.

(** Modelled from the spec: [load_dataset(path, streaming=True,
    split=split)] against the datasets that exist, [hub]: an unknown
    identifier or split is refused by the call itself. *)
Definition load_dataset {A} (hub : gmap string (gmap string (list (list A))))
    (path split : string) : result (IterableDataset A) :=
  match hub !! path with
  | None => Raise (DatasetNotFoundError path)
  | Some splits =>
      match splits !! split with
      | None => Raise (ValueError_bad_split split)
      | Some s => Ok (mkDataset s None)
      end
  end.

(** Modelled from the spec: [dataset.shuffle(seed=..., buffer_size=...)].
    The generator is made in the call, which refuses a negative seed;
    nothing is read until the dataset is iterated. *)
Definition shuffle {A} (d : IterableDataset A) (seed : option Z)
    (buffer_size : positive) : result (IterableDataset A) :=
  match seed with
  | Some s =>
      if decide (s < 0)%Z then Raise (ValueError_seed s)
      else Ok (mkDataset (shards d) (Some (seed, buffer_size)))
  | None => Ok (mkDataset (shards d) (Some (seed, buffer_size)))
  end.

(** Modelled from the spec: the batching loader (the loader library's).
    Its constructor refuses a negative worker count and a batch size that
    is not positive; iterating it yields the collated batches. *)
Record DataLoader (A B : Type) : Type := mkDataLoader {
  dataset : IterableDataset A;
  batch_size : Z;
  collate_fn : list A → B;
  num_workers : Z;
}.
Arguments mkDataLoader {A B} _ _ _ _.
Arguments dataset {A B} _.
Arguments batch_size {A B} _.
Arguments collate_fn {A B} _.
Arguments num_workers {A B} _.

(** Modelled from the spec: [DataLoader(dataset, batch_size=...,
    collate_fn=..., num_workers=...)]. *)
Definition DataLoader_init {A B} (d : IterableDataset A) (bs : Z)
    (collate : list A → B) (workers : Z) : result (DataLoader A B) :=
  if decide (workers < 0)%Z then Raise (ValueError_num_workers workers)
  else if decide (bs ≤ 0)%Z then Raise (ValueError_batch_size bs)
  else Ok (mkDataLoader d bs collate workers).

(** Modelled from the spec: the iterator protocol over what a pass
    yields; [None] is the end of the iteration. *)
Definition next {X} (it : list X) : option (X * list X) :=
  match it with
  | [] => None
  | x :: it' => Some (x, it')
  end.

Fixpoint advance {X} (k : nat) (it : list X) : list X :=
  match k with
  | O => it
  | S k' => match next it with Some (_, it') => advance k' it' | None => it end
  end.

Section Loader.
Context {G : Type} `{!RandomGenerator G}.

(** Modelled from the spec: a permutation made with the generator (used
    for the shard order and for emptying the buffer).  Each round draws
    one of the remaining elements and removes it. *)
Fixpoint draw_all {X} (n : nat) (g : G) (l : list X) : list X :=
  match n, l with
  | S n', x :: _ =>
      let '(i, g') := integers g (length l) in
      nth i l x :: draw_all n' g' (delete i l)
  | _, _ => []
  end.

Definition permute {X} (g : G) (l : list X) : list X :=
  draw_all (length l) g l.

(** Modelled from the spec: the reservoir shuffle of the dataset stream
    capability (its implementation is the dataset library's).  The buffer
    is filled to [buffer_size] records before anything is emitted; from
    then on each incoming record takes the place of a record drawn from
    the buffer, which is emitted.  When the stream ends, what is left in
    the buffer is drawn out. *)
Fixpoint reservoir {X} (buffer_size : nat) (g : G) (mem_buffer : list X)
    (stream : list X) : list X :=
  match stream with
  | [] => permute g mem_buffer
  | x :: stream' =>
      if decide (length mem_buffer = buffer_size) then
        let '(i, g') := integers g buffer_size in
        nth i mem_buffer x :: reservoir buffer_size g' (<[i := x]> mem_buffer) stream'
      else reservoir buffer_size g (mem_buffer ++ [x]) stream'
  end.

(** Modelled from the spec: the records that worker [worker_id] of
    [num_workers] reads.  The shard order is permuted with the seed, the
    worker takes its share of the shards, and its records pass through
    the reservoir.  The generator is made from the seed; only a shuffle
    that was given no seed takes the entropy of the run instead. *)
Definition iter_worker {A} (entropy : Z) (d : IterableDataset A)
    (num_workers worker_id : nat) : list A :=
  match shuffling d with
  | None => concat (worker_shards num_workers worker_id (shards d))
  | Some (seed, buffer_size) =>
      let g := default_rng (default entropy seed) in
      reservoir (Pos.to_nat buffer_size) g []
        (concat (worker_shards num_workers worker_id (permute g (shards d))))
  end.

(** Modelled from the spec: the batches of records of one pass over the
    loader; with no worker the calling process reads the whole stream
    itself. *)
Definition loader_batches {A B} (entropy : Z) (dl : DataLoader A B)
    : list (list A) :=
  let bs := Z.to_nat (batch_size dl) in
  match Z.to_nat (num_workers dl) with
  | O => batches bs (iter_worker entropy (dataset dl) 1 0)
  | W =>
      round_robin
        ((λ w, batches bs (iter_worker entropy (dataset dl) W w)) <$> seq 0 W)
  end.

Definition loader_output {A B} (entropy : Z) (dl : DataLoader A B) : list B :=
  collate_fn dl <$> loader_batches entropy dl.

End Loader.

(** ** The loader factory *)

(** [hub] stands for the datasets that can be loaded by name.  The
    configuration surface makes [shuffle_buffer_size] a positive integer;
    [random_seed], [batch_size] and [num_workers] are any integers, and
    the shuffle and the loader's constructor check them. *)
Definition create_dataloader {A B}
    (hub : gmap string (gmap string (list (list A))))
    (dataset_name : string) (collate_fn : list A → B)
    (dataset_split : string) (batch_size : Z) (shuffle_buffer_size : positive)
    (random_seed : Z) (num_workers : Z) : result (DataLoader A B) :=
  dataset ← load_dataset hub dataset_name dataset_split;
  shuffled_dataset ← shuffle dataset (Some random_seed) shuffle_buffer_size;
  DataLoader_init shuffled_dataset batch_size collate_fn num_workers.

(** The call with the defaults of the signature. *)
Definition create_dataloader_defaults {A B}
    (hub : gmap string (gmap string (list (list A))))
    (dataset_name : string) (collate_fn : list A → B)
    : result (DataLoader A B) :=
  create_dataloader hub dataset_name collate_fn "train" 512 10000 0 2.

(** ** Streams to run examples on *)

(** A pretokenized stream that is not sharded, one in two shards of three
    records, and the loaders that [create_dataloader] makes of them. *)
Definition example_stream : list record :=
  [tokens_record [1]; tokens_record [2]; tokens_record [3];
   tokens_record [4]; tokens_record [5]].

Definition example_shards : list (list record) :=
  [ [tokens_record [1]; tokens_record [2]; tokens_record [3]];
    [tokens_record [4]; tokens_record [5]; tokens_record [6]] ].

Definition example_hub : gmap string (gmap string (list (list record))) :=
  {[ "c4" := {[ "train" := [example_stream] ]};
     "c4-sharded" := {[ "train" := example_shards ]} ]}.

Definition example_loader (shards : list (list record)) (batch_size : Z)
    (shuffle_buffer_size : positive) (random_seed num_workers : Z)
    : DataLoader record (result (Tensor * Tensor)) :=
  mkDataLoader (mkDataset shards (Some (Some random_seed, shuffle_buffer_size)))
    batch_size collate_neel_c4_tokenized num_workers.

(** * Properties *)

(** ** Results and lookups *)

Lemma result_bind_Ok {A B} (f : A → result B) (a : A) : Ok a ≫= f = f a.
Proof. reflexivity. Qed.

Lemma mapM_cons {A B} (f : A → result B) (x : A) (l : list A) :
  mapM f (x :: l) = (y ← f x; k ← mapM f l; mret (y :: k)).
Proof. reflexivity. Qed.

Lemma mapM_Ok {A B} (f : A → result B) (l : list A) (k : list B) :
  Forall2 (λ x y, f x = Ok y) l k → mapM f l = Ok k.
Proof.
  induction 1 as [|x y l k Hx _ IH]; [reflexivity|].
  rewrite mapM_cons, Hx, IH. reflexivity.
Qed.

Lemma mapM_getitem key (batch : list record) (vs : list value) :
  Forall2 (λ r v, r !! key = Some v) batch vs →
  mapM (getitem key) batch = Ok vs.
Proof.
  intros H. apply mapM_Ok. eapply Forall2_impl; [exact H|].
  intros r v Hr. unfold getitem. rewrite Hr. reflexivity.
Qed.

Lemma mapM_ext_lookup key (b1 b2 : list record) :
  Forall2 (λ r1 r2, r1 !! key = r2 !! key) b1 b2 →
  mapM (getitem key) b1 = mapM (getitem key) b2.
Proof.
  induction 1 as [|r1 r2 b1 b2 Hr _ IH]; [reflexivity|].
  rewrite !mapM_cons, IH. unfold getitem. rewrite Hr. reflexivity.
Qed.

(** ** Tensors built from rows of integers *)

Lemma mapM_is_Ok {A B} (f : A → result B) (l : list A) :
  Forall (λ x, ∃ y, f x = Ok y) l → ∃ k, mapM f l = Ok k.
Proof.
  intros H. apply Forall_exists_Forall2_l in H as [k Hk].
  exists k. by apply mapM_Ok.
Qed.

Lemma recursive_store_list dim n sizes (l : list value) :
  recursive_store dim (n :: sizes) (VList l)
  = if decide (length l = n)
    then @concat Z <$> mapM (recursive_store (S dim) sizes) l
    else Raise (ValueError_sequence_length n dim (length l)).
Proof. reflexivity. Qed.

Lemma recursive_store_scalar dim (z : Z) :
  recursive_store dim [] (VInt z)
  = if decide (int64 z) then Ok [z] else Raise RuntimeError_overflow.
Proof. reflexivity. Qed.

Lemma infer_scalar_type_list (l : list value) :
  infer_scalar_type (VList l)
  = (ts ← mapM infer_scalar_type l;
     Ok (match ts with [] => Float | _ => foldr promote Long ts end)).
Proof. reflexivity. Qed.

Lemma infer_int_row (row : list Z) : ∃ t, infer_scalar_type (int_row row) = Ok t.
Proof.
  unfold int_row. rewrite infer_scalar_type_list.
  destruct (mapM_is_Ok infer_scalar_type (VInt <$> row)) as [ts ->].
  - apply Forall_fmap, Forall_true. intros z. by exists Long.
  - by eexists.
Qed.

Lemma infer_int_rows (rows : list (list Z)) :
  ∃ t, infer_scalar_type (VList (int_row <$> rows)) = Ok t.
Proof.
  rewrite infer_scalar_type_list.
  destruct (mapM_is_Ok infer_scalar_type (int_row <$> rows)) as [ts ->].
  - apply Forall_fmap, Forall_true. intros row. apply infer_int_row.
  - by eexists.
Qed.

Lemma store_scalars dim (row : list Z) :
  Forall int64 row →
  mapM (recursive_store dim []) (VInt <$> row) = Ok ((λ z, [z]) <$> row).
Proof.
  intros H. apply mapM_Ok.
  induction H as [|z row Hz _ IH]; constructor; [|exact IH].
  rewrite recursive_store_scalar. by rewrite decide_True.
Qed.

Lemma store_scalars_overflow dim (row : list Z) :
  ¬ Forall int64 row →
  mapM (recursive_store dim []) (VInt <$> row) = Raise RuntimeError_overflow.
Proof.
  induction row as [|z row IH]; intros Hnot; [by destruct Hnot|].
  rewrite fmap_cons, mapM_cons, recursive_store_scalar.
  destruct (decide (int64 z)) as [Hz|Hz]; [|reflexivity].
  rewrite result_bind_Ok, IH; [reflexivity|].
  intros Hrow. apply Hnot. by constructor.
Qed.

Lemma concat_singletons (row : list Z) : concat ((λ z, [z]) <$> row) = row.
Proof. induction row as [|z row IH]; [reflexivity|]. cbn. by rewrite IH. Qed.

Lemma store_row dim (row : list Z) :
  Forall int64 row →
  recursive_store dim [length row] (int_row row) = Ok row.
Proof.
  intros Hrow. unfold int_row. rewrite recursive_store_list.
  rewrite length_fmap, decide_True by reflexivity.
  rewrite store_scalars by done. cbn. by rewrite concat_singletons.
Qed.

Lemma store_row_overflow dim (row : list Z) :
  ¬ Forall int64 row →
  recursive_store dim [length row] (int_row row) = Raise RuntimeError_overflow.
Proof.
  intros Hrow. unfold int_row. rewrite recursive_store_list.
  rewrite length_fmap, decide_True by reflexivity.
  by rewrite store_scalars_overflow.
Qed.

Lemma store_row_mismatch dim len (row : list Z) :
  length row ≠ len →
  recursive_store dim [len] (int_row row)
  = Raise (ValueError_sequence_length len dim (length row)).
Proof.
  intros Hne. unfold int_row. rewrite recursive_store_list.
  rewrite length_fmap. by rewrite decide_False.
Qed.

Lemma store_rows len (rows : list (list Z)) :
  Forall (λ row, length row = len) rows →
  Forall (Forall int64) rows →
  mapM (recursive_store 1 [len]) (int_row <$> rows) = Ok rows.
Proof.
  intros Hlen Hrange. apply mapM_Ok.
  induction Hlen as [|row rows Hrow _ IH]; [constructor|].
  apply Forall_cons in Hrange as [Hr Hrange].
  apply Forall2_cons; constructor.
  - subst len. by apply store_row.
  - by apply IH.
Qed.

(** A row of another length stops the element pass: with the length
    error, unless an integer before it does not fit 64 bits. *)
Lemma store_rows_mismatch len (rows : list (list Z)) :
  Exists (λ row, length row ≠ len) rows →
  ∃ e, mapM (recursive_store 1 [len]) (int_row <$> rows) = Raise e ∧
    (e = RuntimeError_overflow ∨
     ∃ got, got ≠ len ∧ e = ValueError_sequence_length len 1 got) ∧
    (Forall (Forall int64) rows →
     ∃ got, got ≠ len ∧ e = ValueError_sequence_length len 1 got).
Proof.
  induction rows as [|row rows IH]; intros H; [by apply Exists_nil in H|].
  rewrite fmap_cons, mapM_cons.
  destruct (decide (length row = len)) as [Heq|Hne].
  - apply Exists_cons in H as [H|H]; [done|]. subst len.
    destruct (decide (Forall int64 row)) as [Hrow|Hrow].
    + destruct (IH H) as (e & Hraise & Hkind & Hlen).
      exists e. rewrite store_row, result_bind_Ok, Hraise by done.
      split; [reflexivity|]. split; [done|].
      intros Hall. apply Hlen. by apply Forall_cons in Hall as [_ ?].
    + exists RuntimeError_overflow. rewrite store_row_overflow by done.
      split; [reflexivity|]. split; [by left|].
      intros Hall. by apply Forall_cons in Hall as [? _].
  - exists (ValueError_sequence_length len 1 (length row)).
    rewrite store_row_mismatch by done.
    split; [reflexivity|]. split; [right|]; by exists (length row).
Qed.

Lemma compute_sizes_rows (row : list Z) (rows : list (list Z)) :
  compute_sizes (VList (int_row <$> row :: rows))
  = Ok [S (length rows); length row].
Proof.
  unfold int_row. destruct row as [|z row]; cbn; rewrite ?length_fmap; reflexivity.
Qed.

Lemma rows_of_concat len (rows : list (list Z)) :
  Forall (λ row, length row = len) rows →
  rows_of (length rows) len (concat rows) = rows.
Proof.
  induction 1 as [|row rows Hrow _ IH]; [reflexivity|].
  cbn. rewrite take_app_length' by done. rewrite drop_app_length' by done.
  by rewrite IH.
Qed.

Lemma concat_empty_rows (rows : list (list Z)) :
  Forall (λ row, length row = 0%nat) rows → concat rows = [].
Proof.
  induction 1 as [|row rows Hrow _ IH]; [reflexivity|].
  destruct row; [exact IH|discriminate].
Qed.

(** The constructor on rows of integers: what it does after the sizes. *)
Lemma torch_tensor_of_rows (row : list Z) (rows : list (list Z)) :
  torch_tensor (VList (int_row <$> row :: rows))
  = if decide (length row = 0%nat)
    then Ok (mkTensor [S (length rows); length row] [])
    else d ← recursive_store 0 [S (length rows); length row]
               (VList (int_row <$> row :: rows));
         Ok (mkTensor [S (length rows); length row] d).
Proof.
  unfold torch_tensor. rewrite compute_sizes_rows, result_bind_Ok.
  rewrite decide_False by (cbn; unfold MAX_DIMS; lia).
  destruct (infer_int_rows (row :: rows)) as [t ->]. rewrite result_bind_Ok.
  unfold size_product. cbn [foldr].
  destruct (decide (length row = 0%nat)) as [Hrow|Hrow].
  - rewrite decide_True by (rewrite Hrow; lia). reflexivity.
  - rewrite decide_False by lia. reflexivity.
Qed.

Lemma torch_tensor_rows len (rows : list (list Z)) :
  rows ≠ [] → Forall (λ row, length row = len) rows →
  Forall (Forall int64) rows →
  torch_tensor (VList (int_row <$> rows))
  = Ok (mkTensor [length rows; len] (concat rows)).
Proof.
  intros Hne Hrows Hrange. destruct rows as [|row rows]; [done|].
  rewrite torch_tensor_of_rows.
  pose proof (Forall_inv Hrows) as Hrow. cbn in Hrow. subst len.
  case_decide as Hzero.
  - rewrite Hzero in Hrows. by rewrite (concat_empty_rows _ Hrows).
  - rewrite recursive_store_list, length_fmap.
    rewrite decide_True by reflexivity.
    rewrite (store_rows _ _ Hrows Hrange). reflexivity.
Qed.

(** When the first row is empty the tensor has no elements and the other
    rows are not looked at. *)
Lemma torch_tensor_first_empty (rows : list (list Z)) :
  torch_tensor (VList (int_row <$> [] :: rows))
  = Ok (mkTensor [S (length rows); 0%nat] []).
Proof. rewrite torch_tensor_of_rows. reflexivity. Qed.

Lemma torch_tensor_ragged (row : list Z) (rows : list (list Z)) :
  row ≠ [] →
  Exists (λ r, length r ≠ length row) (row :: rows) →
  ∃ e, torch_tensor (VList (int_row <$> row :: rows)) = Raise e ∧
    (e = RuntimeError_overflow ∨
     ∃ got, got ≠ length row ∧
            e = ValueError_sequence_length (length row) 1 got) ∧
    (Forall (Forall int64) (row :: rows) →
     ∃ got, got ≠ length row ∧
            e = ValueError_sequence_length (length row) 1 got).
Proof.
  intros Hrow Hex.
  destruct (store_rows_mismatch _ _ Hex) as (e & Hraise & Hkind & Hlen).
  exists e. split; [|done].
  rewrite torch_tensor_of_rows.
  rewrite decide_False by (by destruct row).
  rewrite recursive_store_list, length_fmap.
  rewrite decide_True by reflexivity.
  rewrite Hraise. reflexivity.
Qed.


Lemma fmap_ones_replicate (row : list Z) :
  (λ _, 1) <$> row = replicate (length row) 1.
Proof. induction row as [|z row IH]; [reflexivity|]. cbn. by rewrite IH. Qed.

Lemma ones_concat len (rows : list (list Z)) :
  Forall (λ row, length row = len) rows →
  (λ _, 1) <$> concat rows = concat (replicate (length rows) (replicate len 1)).
Proof.
  induction 1 as [|row rows Hrow _ IH]; [reflexivity|].
  cbn. rewrite fmap_app, IH, fmap_ones_replicate, Hrow. reflexivity.
Qed.

Lemma tokens_of_rows (P : list Z → Prop) (batch : list record) rows :
  Forall2 (λ r row, r !! "tokens" = Some (int_row row) ∧ P row) batch rows →
  mapM (getitem "tokens") batch = Ok (int_row <$> rows) ∧
  Forall P rows ∧ length batch = length rows.
Proof.
  intros H. split; [|split].
  - apply mapM_getitem. apply Forall2_fmap_r.
    eapply Forall2_impl; [exact H|]. by intros r row [? _].
  - eapply Forall2_Forall_r; [exact H|]. apply Forall_forall. by intros row _ r [_ ?].
  - by eapply Forall2_length.
Qed.

(** ** The pretokenized collator *)

Example collate_scenario :
  collate_neel_c4_tokenized [tokens_record [1; 2; 3]; tokens_record [4; 5; 6]]
  = Ok (mkTensor [2; 3]%nat [1; 2; 3; 4; 5; 6],
        mkTensor [2; 3]%nat [1; 1; 1; 1; 1; 1]).
Proof. vm_compute. reflexivity. Qed.

(** C1, as amended: when the batch is not empty and every record's
    "tokens" is a sequence of the same length [len] of integers that fit
    64 bits, the pretokenized collator returns [(ids, mask)] where [ids]
    is the matrix of shape [(len(batch), len)] whose rows are the records'
    token sequences in batch order, unchanged, and [mask] has the same
    shape with every entry 1. *)
Theorem collate_neel_c4_tokenized_equal_lengths
    (batch : list record) (rows : list (list Z)) (len : nat) :
  batch ≠ [] →
  Forall2 (λ r row, r !! "tokens" = Some (int_row row) ∧
                    length row = len ∧ Forall int64 row)
    batch rows →
  ∃ ids mask,
    collate_neel_c4_tokenized batch = Ok (ids, mask) ∧
    shape ids = [length batch; len] ∧
    data ids = concat rows ∧
    tolist2 ids = Some rows ∧
    shape mask = [length batch; len] ∧
    tolist2 mask = Some (replicate (length batch) (replicate len 1)) ∧
    Forall (λ z, z = 1) (data mask).
Proof.
  intros Hne H.
  destruct (tokens_of_rows _ _ _ H) as (Htokens & Hrows & Hlen).
  apply Forall_and in Hrows as [Hrows Hrange].
  assert (rows ≠ []) as Hne' by (intros ->; by destruct batch).
  unfold collate_neel_c4_tokenized.
  rewrite Htokens, result_bind_Ok, (torch_tensor_rows len) by done.
  rewrite result_bind_Ok. eexists _, _. split; [reflexivity|].
  unfold tolist2, torch_ones_like. cbn [shape data]. rewrite Hlen.
  repeat split.
  - by rewrite (rows_of_concat len).
  - rewrite (ones_concat len) by done. f_equal.
    rewrite <- (length_replicate (length rows) (replicate len 1)) at 1.
    apply rows_of_concat. apply Forall_replicate. apply length_replicate.
  - apply Forall_fmap, Forall_true. done.
Qed.

Lemma collate_neel_c4_tokenized_equal_lengths_witness :
  ∃ ids mask,
    collate_neel_c4_tokenized [tokens_record [1; 2; 3]; tokens_record [4; 5; 6]]
    = Ok (ids, mask) ∧
    shape ids = [2; 3]%nat ∧
    data ids = concat [[1; 2; 3]; [4; 5; 6]] ∧
    tolist2 ids = Some [[1; 2; 3]; [4; 5; 6]] ∧
    shape mask = [2; 3]%nat ∧
    tolist2 mask = Some [[1; 1; 1]; [1; 1; 1]] ∧
    Forall (λ z, z = 1) (data mask).
Proof.
  apply (collate_neel_c4_tokenized_equal_lengths
           [tokens_record [1; 2; 3]; tokens_record [4; 5; 6]]
           [[1; 2; 3]; [4; 5; 6]] 3).
  - discriminate.
  - repeat constructor; unfold int64; lia.
Defined.

(** The claim C1 as it is written does not hold: a batch of one record
    whose one token id is 2^63 is not empty and has sequences of one
    length, and the collator raises the constructor's overflow error
    instead of returning tensors. *)
Lemma collate_neel_c4_tokenized_overflow :
  [tokens_record [2 ^ 63]] ≠ [] ∧
  Forall2 (λ r row, r !! "tokens" = Some (int_row row) ∧ length row = 1%nat)
    [tokens_record [2 ^ 63]] [[2 ^ 63]] ∧
  collate_neel_c4_tokenized [tokens_record [2 ^ 63]]
  = Raise RuntimeError_overflow.
Proof.
  split; [discriminate|]. split; [repeat constructor|].
  vm_compute. reflexivity.
Qed.



Example collate_ragged_scenario :
  collate_neel_c4_tokenized [tokens_record [1; 2; 3]; tokens_record [4; 5]]
  = Raise (ValueError_sequence_length 3 1 2).
Proof. vm_compute. reflexivity. Qed.


Lemma collate_neel_shapes (batch : list record) :
  match collate_neel_c4_tokenized batch with
  | Ok (ids, mask) => shape ids = shape mask
  | Raise _ => True
  end.
Proof.
  unfold collate_neel_c4_tokenized.
  destruct (mapM (getitem "tokens") batch) as [tokens|e]; [|exact I].
  rewrite result_bind_Ok.
  destruct (torch_tensor (VList tokens)) as [tokenized|e]; [|exact I].
  reflexivity.
Qed.

(** C9: on the empty batch the pretokenized collator does not raise: it
    returns two tensors without elements and of the same shape, which is
    the one-dimensional shape [(0,)] and not a matrix shape
    [(0, seq_len)]; and whenever the collator returns, on any batch, ids
    and mask have the same shape. *)
Theorem collate_neel_c4_tokenized_empty :
  (∃ ids mask,
     collate_neel_c4_tokenized [] = Ok (ids, mask) ∧
     data ids = [] ∧ data mask = [] ∧
     shape ids = shape mask ∧
     shape ids = [0%nat] ∧
     ndim ids ≠ 2%nat ∧
     tolist2 ids = None) ∧
  (∀ batch,
     match collate_neel_c4_tokenized batch with
     | Ok (ids, mask) => shape ids = shape mask
     | Raise _ => True
     end).
Proof.
  split; [|exact collate_neel_shapes].
  eexists _, _. split; [reflexivity|]. cbn. repeat split. lia.
Qed.

(** ** The raw-text collator *)

Lemma collate_pile_eq {St} (tokenizer : Tokenizer St) (batch : list record)
    (texts : list value) (s : St) :
  mapM (getitem "text") batch = Ok texts →
  collate_pile batch tokenizer s
  = ((λ enc, (input_ids enc, attention_mask enc)) <$>
       (tokenize tokenizer s (mkCall texts "pt" true true 512)).1,
     (tokenize tokenizer s (mkCall texts "pt" true true 512)).2).
Proof.
  intros Htexts. unfold collate_pile, mbind, eff_bind, lift, call.
  rewrite Htexts.
  destruct (tokenize tokenizer s _) as [[enc|e] s']; reflexivity.
Qed.

Lemma recording_tokenize {St} (tokenizer : Tokenizer St) s log c :
  tokenize (recording tokenizer) (s, log) c
  = ((tokenize tokenizer s c).1, ((tokenize tokenizer s c).2, log ++ [c])).
Proof. cbn. by destruct (tokenize tokenizer s c). Qed.

(** C2: on a batch whose records all have a "text" field, the raw-text
    collator takes the texts in batch order, calls the tokenizer once,
    with padding and truncation on and a maximum length of 512, and
    returns the ids and the attention mask of the encoding as they are;
    an error of the tokenizer is passed on, and the tokenizer is left in
    the state that this one call left it in. *)
Theorem collate_pile_single_call {St} (tokenizer : Tokenizer St)
    (batch : list record) (texts : list value) (s : St) :
  Forall2 (λ r v, r !! "text" = Some v) batch texts →
  collate_pile batch tokenizer s
  = ((λ enc, (input_ids enc, attention_mask enc)) <$>
       (tokenize tokenizer s (mkCall texts "pt" true true 512)).1,
     (tokenize tokenizer s (mkCall texts "pt" true true 512)).2) ∧
  (collate_pile batch (recording tokenizer) (s, [])).2.2
  = [mkCall texts "pt" true true 512].
Proof.
  intros H. apply mapM_getitem in H. split.
  - by apply collate_pile_eq.
  - rewrite (collate_pile_eq _ _ texts) by done.
    rewrite recording_tokenize. reflexivity.
Qed.

Lemma collate_pile_single_call_witness :
  collate_pile [text_record "a"; text_record "bc"] (byte_tokenizer 0) ()
  = ((λ enc, (input_ids enc, attention_mask enc)) <$>
       (tokenize (byte_tokenizer 0) ()
          (mkCall [VStr "a"; VStr "bc"] "pt" true true 512)).1,
     (tokenize (byte_tokenizer 0) ()
          (mkCall [VStr "a"; VStr "bc"] "pt" true true 512)).2) ∧
  (collate_pile [text_record "a"; text_record "bc"]
     (recording (byte_tokenizer 0)) ((), [])).2.2
  = [mkCall [VStr "a"; VStr "bc"] "pt" true true 512].
Proof.
  apply (collate_pile_single_call (byte_tokenizer 0)
           [text_record "a"; text_record "bc"] [VStr "a"; VStr "bc"] ()).
  repeat constructor.
Defined.

Example collate_pile_scenario :
  collate_pile [text_record "a"; text_record "bc"] (byte_tokenizer 0) ()
  = (Ok (mkTensor [2; 2]%nat [97; 0; 98; 99],
         mkTensor [2; 2]%nat [1; 0; 1; 1]), ()).
Proof. vm_compute. reflexivity. Qed.

(** A missing "text" field raises before the tokenizer is called. *)
Example collate_pile_missing_text :
  collate_pile [text_record "a"; tokens_record [1]]
    (recording (byte_tokenizer 0)) ((), [])
  = (Raise (KeyError "text"), ((), [])).
Proof. vm_compute. reflexivity. Qed.

(** C4: if the encoding that the tokenizer returns for the texts of the
    batch has ids and mask of one shape, one row per text, and the
    padding id wherever the mask is 0, then what the raw-text collator
    returns has ids and mask of one shape, one row per record, and at
    every position where the mask is 0 the id is the tokenizer's padding
    id. *)
Theorem collate_pile_padded {St} (tokenizer : Tokenizer St)
    (batch : list record) (s s' : St) (ids mask : Tensor) :
  (∀ texts enc s1,
     mapM (getitem "text") batch = Ok texts →
     tokenize tokenizer s (mkCall texts "pt" true true 512) = (Ok enc, s1) →
     encoding_padded (pad_token_id tokenizer) (length texts)
       (input_ids enc) (attention_mask enc)) →
  collate_pile batch tokenizer s = (Ok (ids, mask), s') →
  shape ids = shape mask ∧
  head (shape ids) = Some (length batch) ∧
  ∀ p, data mask !! p = Some 0 → data ids !! p = Some (pad_token_id tokenizer).
Proof.
  intros Hcontract Hrun.
  destruct (mapM (getitem "text") batch) as [texts|e] eqn:Htexts.
  - rewrite (collate_pile_eq _ _ texts) in Hrun by done.
    destruct (tokenize tokenizer s _) as [[enc|e] s1] eqn:Hcall; [|discriminate].
    cbn in Hrun. injection Hrun as <- <- <-.
    destruct (Hcontract texts enc s1 eq_refl Hcall) as [Hshape Haligned Hpad].
    repeat split; [done| |done].
    rewrite Haligned. f_equal. clear -Htexts.
    revert texts Htexts. induction batch as [|r batch IH]; intros texts Htexts.
    + by injection Htexts as <-.
    + rewrite mapM_cons in Htexts.
      destruct (getitem "text" r); [|discriminate].
      rewrite result_bind_Ok in Htexts.
      destruct (mapM (getitem "text") batch) as [k|]; [|discriminate].
      injection Htexts as <-. cbn. f_equal. by apply IH.
  - unfold collate_pile, mbind, eff_bind, lift in Hrun.
    rewrite Htexts in Hrun. discriminate.
Qed.

Lemma collate_pile_padded_witness :
  shape (mkTensor [2; 2]%nat [97; 0; 98; 99])
  = shape (mkTensor [2; 2]%nat [1; 0; 1; 1]) ∧
  head (shape (mkTensor [2; 2]%nat [97; 0; 98; 99])) = Some 2%nat ∧
  ∀ p, data (mkTensor [2; 2]%nat [1; 0; 1; 1]) !! p = Some 0 →
       data (mkTensor [2; 2]%nat [97; 0; 98; 99]) !! p
       = Some (pad_token_id (byte_tokenizer 0)).
Proof.
  apply (collate_pile_padded (byte_tokenizer 0)
           [text_record "a"; text_record "bc"] () ()).
  - intros texts enc s1 Htexts Hcall.
    vm_compute in Htexts. injection Htexts as <-.
    vm_compute in Hcall. injection Hcall as <- _.
    split; [reflexivity|reflexivity|].
    intros [|[|[|[|p]]]]; simpl; intros H; try discriminate H; reflexivity.
  - vm_compute. reflexivity.
Defined.

(** ** Which fields the collators read *)

(** C10: two batches that agree, record by record, on the "tokens" field
    give the same result in the pretokenized collator, and two batches
    that agree, record by record, on the "text" field give the same
    result (and the same tokenizer state) in the raw-text collator with
    the same tokenizer; no other field of a record matters. *)
Theorem collators_read_one_field {St} (tokenizer : Tokenizer St) (s : St)
    (b1 b2 c1 c2 : list record) :
  Forall2 (λ r1 r2, r1 !! "tokens" = r2 !! "tokens") b1 b2 →
  Forall2 (λ r1 r2, r1 !! "text" = r2 !! "text") c1 c2 →
  collate_neel_c4_tokenized b1 = collate_neel_c4_tokenized b2 ∧
  collate_pile c1 tokenizer s = collate_pile c2 tokenizer s.
Proof.
  intros Hb Hc. split.
  - unfold collate_neel_c4_tokenized. by rewrite (mapM_ext_lookup _ _ _ Hb).
  - unfold collate_pile. by rewrite (mapM_ext_lookup _ _ _ Hc).
Qed.

Lemma collators_read_one_field_witness :
  collate_neel_c4_tokenized
    [<["id" := VInt 7]> (tokens_record [1; 2]); tokens_record [3; 4]]
  = collate_neel_c4_tokenized
      [tokens_record [1; 2]; <["meta" := VStr "x"]> (tokens_record [3; 4])] ∧
  collate_pile [<["meta" := VStr "x"]> (text_record "a")] (byte_tokenizer 0) ()
  = collate_pile [<["tokens" := int_row [5]]> (text_record "a")]
      (byte_tokenizer 0) ().
Proof.
  apply (collators_read_one_field (byte_tokenizer 0) ()).
  - repeat constructor.
  - repeat constructor.
Defined.

(** The records of the two batches above do differ. *)
Example other_fields_differ :
  <["id" := VInt 7]> (tokens_record [1; 2]) ≠ tokens_record [1; 2].
Proof.
  intros H. apply (f_equal (λ r : record, r !! "id")) in H.
  vm_compute in H. discriminate H.
Qed.

(** ** Batching *)

Lemma batches_from_concat {X} bs (current stream : list X) :
  concat (batches_from bs current stream) = current ++ stream.
Proof.
  revert current. induction stream as [|x stream IH]; intros current; cbn.
  - destruct current; cbn; by rewrite ?app_nil_r.
  - case_decide; cbn; rewrite IH; by rewrite <- ?app_assoc.
Qed.

Lemma batches_concat {X} bs (stream : list X) :
  concat (batches bs stream) = stream.
Proof. apply batches_from_concat. Qed.

Lemma batches_from_lengths {X} bs (current stream : list X) :
  (length current < bs)%nat →
  Forall (λ b, (1 ≤ length b ≤ bs)%nat) (batches_from bs current stream).
Proof.
  revert current. induction stream as [|x stream IH]; intros current Hcur; cbn.
  - destruct current as [|y current]; constructor; [|constructor].
    cbn in *. lia.
  - case_decide as Hfull.
    + constructor; [lia|]. apply IH. cbn. lia.
    + apply IH. rewrite length_app in *. cbn in *. lia.
Qed.

Lemma batches_lengths {X} bs (stream : list X) :
  (0 < bs)%nat → Forall (λ b, (1 ≤ length b ≤ bs)%nat) (batches bs stream).
Proof. intros Hbs. by apply batches_from_lengths. Qed.

Lemma batches_from_only_last {X} bs (current stream : list X) :
  (length current < bs)%nat →
  only_last_shorter bs (batches_from bs current stream).
Proof.
  revert current. induction stream as [|x stream IH]; intros current Hcur; cbn.
  - intros i b Hi Hlast. destruct current; cbn in *; [lia|].
    destruct i; cbn in *; lia.
  - case_decide as Hfull.
    + intros [|i] b Hi Hlast; cbn in *.
      * by injection Hi as <-.
      * eapply (IH []); [cbn; lia|exact Hi|lia].
    + apply IH. rewrite length_app in *. cbn in *. lia.
Qed.

Lemma batches_only_last {X} bs (stream : list X) :
  (0 < bs)%nat → only_last_shorter bs (batches bs stream).
Proof. intros Hbs. by apply batches_from_only_last. Qed.

Lemma batches_from_short {X} bs (current stream : list X) :
  (length current < bs)%nat →
  (length (short_batches bs (batches_from bs current stream)) ≤ 1)%nat.
Proof.
  unfold short_batches.
  revert current. induction stream as [|x stream IH]; intros current Hcur; cbn.
  - destruct current; [cbn; lia|]. rewrite filter_cons, filter_nil.
    case_decide; cbn; lia.
  - case_decide as Hfull.
    + rewrite filter_cons_False by lia.
      apply IH. cbn. lia.
    + apply IH. rewrite length_app in *. cbn in *. lia.
Qed.

Lemma batches_short {X} bs (stream : list X) :
  (0 < bs)%nat → (length (short_batches bs (batches bs stream)) ≤ 1)%nat.
Proof. intros Hbs. by apply batches_from_short. Qed.

(** ** The rotation over the workers *)

Lemma heads_tails_Permutation {X} (queues : list (list X)) :
  omap head queues ++ concat (tail <$> queues) ≡ₚ concat queues.
Proof.
  induction queues as [|q queues IH]; [done|].
  destruct q as [|x q]; cbn; [exact IH|].
  constructor. rewrite <- IH.
  rewrite !app_assoc. apply Permutation_app_tail, Permutation_app_comm.
Qed.

Lemma rounds_Permutation {X} n (queues : list (list X)) :
  Forall (λ q, (length q ≤ n)%nat) queues → rounds n queues ≡ₚ concat queues.
Proof.
  revert queues. induction n as [|n IH]; intros queues Hlen; cbn.
  - induction Hlen as [|q queues Hq _ IHq]; [done|].
    destruct q; [exact IHq|cbn in Hq; lia].
  - rewrite IH; [apply heads_tails_Permutation|].
    apply Forall_fmap. eapply Forall_impl; [exact Hlen|].
    intros [|x q] Hq; cbn in *; lia.
Qed.

Lemma round_robin_Permutation {X} (queues : list (list X)) :
  round_robin queues ≡ₚ concat queues.
Proof.
  apply rounds_Permutation, Forall_forall. intros q Hq.
  apply max_list_elem_of_le. apply list_elem_of_fmap. by exists q.
Qed.

Lemma short_batches_concat {X} bs (queues : list (list (list X))) :
  Forall (λ q, (length (short_batches bs q) ≤ 1)%nat) queues →
  (length (short_batches bs (concat queues)) ≤ length queues)%nat.
Proof.
  unfold short_batches.
  induction 1 as [|q queues Hq _ IH]; [cbn; lia|].
  cbn. rewrite filter_app, length_app. lia.
Qed.


Lemma rounds_elem {X} n (queues : list (list X)) (x : X) :
  x ∈ rounds n queues → ∃ q, q ∈ queues ∧ x ∈ q.
Proof.
  revert queues. induction n as [|n IH]; intros queues; cbn.
  - by intros ?%elem_of_nil.
  - intros [Hx|Hx]%elem_of_app.
    + apply list_elem_of_omap in Hx as (q & Hq & Hhead).
      exists q. split; [done|]. destruct q; [done|].
      injection Hhead as ->. by left.
    + apply IH in Hx as (q' & Hq' & Hx).
      apply list_elem_of_fmap in Hq' as (q & -> & Hq).
      exists q. split; [done|]. destruct q; [done|]. by right.
Qed.

Lemma rounds_only_first {X} n (q : list X) (queues : list (list X)) :
  Forall (λ q', q' = []) queues → rounds n (q :: queues) = take n q.
Proof.
  intros Hqueues.
  assert (omap head queues = []) as Hheads.
  { clear -Hqueues. induction Hqueues as [|q' queues -> _ IH]; [done|]. by cbn. }
  assert (tail <$> queues = queues) as Htails.
  { clear -Hqueues. induction Hqueues as [|q' queues -> _ IH]; [done|].
    cbn. by rewrite IH. }
  revert q. induction n as [|n IH]; intros q; [by rewrite take_0|].
  cbn [rounds]. rewrite fmap_cons, Htails, IH.
  cbn. rewrite Hheads. destruct q; cbn; by rewrite ?take_nil, ?app_nil_r.
Qed.

Lemma round_robin_only_first {X} (q : list X) (queues : list (list X)) :
  Forall (λ q', q' = []) queues → round_robin (q :: queues) = q.
Proof.
  intros Hqueues. unfold round_robin. rewrite rounds_only_first by done.
  apply take_ge. cbn. lia.
Qed.

(** ** The iterator protocol *)

Lemma advance_drop {X} k (it : list X) : advance k it = drop k it.
Proof.
  revert it. induction k as [|k IH]; intros it; [done|].
  destruct it; cbn; [done|apply IH].
Qed.

Lemma next_advance {X} k (it : list X) :
  next (advance k it) = (λ x, (x, drop (S k) it)) <$> it !! k.
Proof.
  rewrite advance_drop. revert it. induction k as [|k IH]; intros it.
  - destruct it; reflexivity.
  - destruct it; [reflexivity|]. cbn. apply IH.
Qed.

Lemma next_advance_fmap {X Y} (f : X → Y) k (l : list X) :
  next (advance k (f <$> l)) = (λ x, (f x, drop (S k) (f <$> l))) <$> l !! k.
Proof.
  rewrite next_advance, list_lookup_fmap. by destruct (l !! k).
Qed.

(** ** Draws and the reservoir *)

Lemma delete_insert_same {X} (l : list X) i x :
  delete i (<[i:=x]> l) = delete i l.
Proof.
  revert i. induction l as [|y l IH]; intros [|i]; cbn; try done.
  by rewrite IH.
Qed.

Section Generator.
Context {G : Type} `{!RandomGenerator G}.

Lemma integers_one (g : G) : (integers g 1).1 = 0%nat.
Proof. pose proof (integers_lt g 1). lia. Qed.

Lemma permute_nil {X} (g : G) : permute g (@nil X) = [].
Proof. reflexivity. Qed.

Lemma permute_singleton {X} (g : G) (x : X) : permute g [x] = [x].
Proof.
  unfold permute. cbn. pose proof (integers_one g) as Hi.
  destruct (integers g 1) as [i g']. cbn in Hi. by subst i.
Qed.

Lemma draw_all_Permutation {X} n (g : G) (l : list X) :
  length l = n → draw_all n g l ≡ₚ l.
Proof.
  revert g l. induction n as [|n IH]; intros g l Hlen.
  - by destruct l.
  - destruct l as [|x l]; [done|]. cbn [draw_all].
    pose proof (integers_lt g (length (x :: l))) as Hi.
    destruct (integers g (length (x :: l))) as [i g']. cbn [fst] in Hi.
    destruct (lookup_lt_is_Some_2 (x :: l) i) as [y Hy]; [cbn in *; lia|].
    rewrite (nth_lookup_Some _ _ _ _ Hy).
    rewrite (delete_Permutation _ _ _ Hy) at 2. constructor.
    apply IH. rewrite length_delete by eauto. cbn in *. lia.
Qed.

Lemma permute_Permutation {X} (g : G) (l : list X) : permute g l ≡ₚ l.
Proof. by apply draw_all_Permutation. Qed.

Lemma permute_pair {X} (g : G) (x y : X) :
  permute g [x; y] = [x; y] ∨ permute g [x; y] = [y; x].
Proof.
  unfold permute. cbn [length draw_all].
  pose proof (integers_lt g 2) as Hi.
  destruct (integers g 2) as [i g']. cbn [fst] in Hi.
  pose proof (integers_one g') as Hj.
  destruct i as [|[|i]]; [left|right|lia]; cbn;
    destruct (integers g' 1) as [j g'']; cbn in Hj; by subst j.
Qed.

(** With a buffer of one record the reservoir emits the stream as it
    comes. *)
Lemma reservoir_one_from {X} (g : G) (x : X) (stream : list X) :
  reservoir 1 g [x] stream = x :: stream.
Proof.
  revert g x. induction stream as [|y stream IH]; intros g x; cbn.
  - apply permute_singleton.
  - pose proof (integers_one g) as Hi.
    destruct (integers g 1) as [i g']. cbn in Hi. subst i. cbn. by rewrite IH.
Qed.

Lemma reservoir_one {X} (g : G) (stream : list X) :
  reservoir 1 g [] stream = stream.
Proof. destruct stream as [|x stream]; [reflexivity|]. apply reservoir_one_from. Qed.

(** The reservoir emits every record once, whatever the buffer size. *)
Lemma reservoir_Permutation {X} bs (g : G) (buffer stream : list X) :
  (0 < bs)%nat → reservoir bs g buffer stream ≡ₚ buffer ++ stream.
Proof.
  intros Hbs. revert g buffer.
  induction stream as [|x stream IH]; intros g buffer; cbn [reservoir].
  - rewrite app_nil_r. apply permute_Permutation.
  - case_decide as Hfull.
    + pose proof (integers_lt g bs Hbs) as Hi.
      destruct (integers g bs) as [i g']. cbn [fst] in Hi.
      destruct (lookup_lt_is_Some_2 buffer i) as [y Hy]; [lia|].
      rewrite (nth_lookup_Some _ _ _ _ Hy), IH.
      rewrite (delete_Permutation _ _ _ Hy) at 2.
      rewrite (delete_Permutation (<[i:=x]> buffer) i x)
        by (apply list_lookup_insert_eq; lia).
      rewrite delete_insert_same. cbn.
      constructor. apply Permutation_middle.
    + rewrite IH, <- app_assoc. reflexivity.
Qed.

(** Nothing is emitted before the buffer is full: a stream that fits in
    the buffer comes out only when it has ended. *)
Lemma reservoir_fills_first {X} bs (g : G) (buffer stream : list X) :
  (length buffer + length stream ≤ bs)%nat →
  reservoir bs g buffer stream = permute g (buffer ++ stream).
Proof.
  revert buffer. induction stream as [|x stream IH]; intros buffer Hlen.
  - cbn. by rewrite app_nil_r.
  - cbn [reservoir]. cbn in Hlen. rewrite decide_False by lia.
    rewrite IH by (rewrite length_app; cbn; lia). by rewrite <- app_assoc.
Qed.

Lemma length_reservoir {X} bs (g : G) (buffer stream : list X) :
  (0 < bs)%nat →
  length (reservoir bs g buffer stream) = (length buffer + length stream)%nat.
Proof.
  intros Hbs. rewrite (reservoir_Permutation bs g buffer stream Hbs).
  apply length_app.
Qed.

End Generator.

(** ** The loader *)

Lemma worker_shards_nil {X} W w : worker_shards W w (@nil X) = [].
Proof. reflexivity. Qed.

Lemma worker_shards_singleton {X} W w (s : X) :
  worker_shards W w [s] = if decide (w = 0%nat) then [s] else [].
Proof.
  unfold worker_shards. cbn. rewrite Nat.Div0.mod_0_l.
  destruct w; reflexivity.
Qed.

Section LoaderProperties.
Context {G : Type} `{!RandomGenerator G} {A B : Type}.
Implicit Types (hub : gmap string (gmap string (list (list A)))).
Implicit Types (dl : DataLoader A B) (collate : list A → B).

Lemma create_dataloader_Ok hub name collate split bs size seed W dl :
  create_dataloader hub name collate split bs size seed W = Ok dl ↔
  ∃ splits s,
    hub !! name = Some splits ∧ splits !! split = Some s ∧
    (0 ≤ seed)%Z ∧ (0 ≤ W)%Z ∧ (0 < bs)%Z ∧
    dl = mkDataLoader (mkDataset s (Some (Some seed, size))) bs collate W.
Proof.
  unfold create_dataloader, load_dataset, DataLoader_init, shuffle. split.
  - destruct (hub !! name) as [splits|] eqn:Hname; [|discriminate].
    destruct (splits !! split) as [s|] eqn:Hsplit; [|discriminate].
    rewrite result_bind_Ok. cbn [shards].
    destruct (decide (seed < 0)%Z) as [Hseed|Hseed];
      [intros H'; cbn in H'; discriminate H'|].
    rewrite result_bind_Ok.
    repeat case_decide; try discriminate.
    intros [= <-]. exists splits, s. repeat split; try done; lia.
  - intros (splits & s & -> & -> & Hseed & HW & Hbs & ->).
    rewrite result_bind_Ok. cbn [shards].
    rewrite decide_False by lia. rewrite result_bind_Ok.
    rewrite !decide_False by lia. reflexivity.
Qed.

Lemma iter_worker_seeded (d : IterableDataset A) seed size e1 e2 W w :
  shuffling d = Some (Some seed, size) →
  iter_worker e1 d W w = iter_worker e2 d W w.
Proof. unfold iter_worker. by intros ->. Qed.

Lemma loader_batches_seeded dl seed size e1 e2 :
  shuffling (dataset dl) = Some (Some seed, size) →
  loader_batches e1 dl = loader_batches e2 dl.
Proof.
  intros Hseed. unfold loader_batches.
  destruct (Z.to_nat (num_workers dl)) as [|W'].
  - by rewrite (iter_worker_seeded _ _ _ e1 e2 _ _ Hseed).
  - f_equal. apply list_fmap_ext. intros _ w _.
    by rewrite (iter_worker_seeded _ _ _ e1 e2 _ _ Hseed).
Qed.

Lemma loader_batches_lengths dl entropy :
  (0 < batch_size dl)%Z →
  Forall (λ b, (1 ≤ length b ≤ Z.to_nat (batch_size dl))%nat)
    (loader_batches entropy dl).
Proof.
  intros Hbs. unfold loader_batches.
  destruct (Z.to_nat (num_workers dl)) as [|W'].
  - apply batches_lengths. lia.
  - apply Forall_forall. intros b Hb.
    apply rounds_elem in Hb as (q & Hq & Hb).
    apply list_elem_of_fmap in Hq as (w & -> & _).
    revert b Hb. apply Forall_forall, batches_lengths. lia.
Qed.

Lemma loader_short_batches dl entropy :
  (0 < batch_size dl)%Z →
  (length (short_batches (Z.to_nat (batch_size dl)) (loader_batches entropy dl))
   ≤ 1 `max` Z.to_nat (num_workers dl))%nat.
Proof.
  intros Hbs. unfold loader_batches.
  destruct (Z.to_nat (num_workers dl)) as [|W'].
  - apply batches_short. lia.
  - unfold short_batches. rewrite round_robin_Permutation.
    etrans; [apply short_batches_concat|].
    + apply Forall_fmap, Forall_forall. intros w _. apply batches_short. lia.
    + rewrite length_fmap, length_seq. lia.
Qed.

(** With a buffer of one record a worker reads the records of its shards
    in their order. *)
Lemma iter_worker_buffer_one (d : IterableDataset A) seed W w entropy :
  shuffling d = Some (Some seed, 1%positive) →
  iter_worker entropy d W w
  = concat (worker_shards W w (permute (default_rng seed) (shards d))).
Proof.
  intros Hd. unfold iter_worker. rewrite Hd. apply reservoir_one.
Qed.

(** The records that a worker reads from a stream of one shard: all of
    them for the first worker, none for the others. *)
Lemma iter_worker_one_shard (s : list A) seed W w entropy :
  iter_worker entropy (mkDataset [s] (Some (seed, 1%positive))) W w
  = if decide (w = 0%nat) then s else [].
Proof.
  unfold iter_worker. cbn [shuffling shards].
  rewrite permute_singleton, worker_shards_singleton, reservoir_one.
  case_decide; cbn; by rewrite ?app_nil_r.
Qed.

Lemma iter_worker_at_most_one_shard (d : IterableDataset A) W w entropy :
  (length (shards d) ≤ 1)%nat → w ≠ 0%nat → iter_worker entropy d W w = [].
Proof.
  intros Hlen Hw. unfold iter_worker.
  destruct (shards d) as [|s [|s' l]] eqn:Hs; [| |cbn in Hlen; lia].
  - destruct (shuffling d) as [[seed size]|]; [|reflexivity].
    rewrite permute_nil. reflexivity.
  - destruct (shuffling d) as [[seed size]|].
    + rewrite permute_singleton, worker_shards_singleton.
      rewrite decide_False by done. reflexivity.
    + rewrite worker_shards_singleton. by rewrite decide_False.
Qed.

Lemma loader_batches_one_reader dl entropy :
  (num_workers dl ≤ 1)%Z ∨ (length (shards (dataset dl)) ≤ 1)%nat →
  ∃ stream,
    loader_batches entropy dl = batches (Z.to_nat (batch_size dl)) stream.
Proof.
  intros Hone. unfold loader_batches.
  destruct (Z.to_nat (num_workers dl)) as [|W'] eqn:HW; [by eexists|].
  eexists. cbn [seq fmap list_fmap]. apply round_robin_only_first.
  apply Forall_fmap, Forall_forall. intros w Hw. cbn.
  apply elem_of_seq in Hw. destruct Hone as [Hone|Hone].
  - assert (W' = 0%nat) as -> by lia. lia.
  - rewrite iter_worker_at_most_one_shard by (done || lia). reflexivity.
Qed.

(** A stream that is not sharded comes out whole: the records of a pass
    are the records of the stream, each once. *)
Lemma loader_emits_stream_unsharded (s : list A) seed size bs collate W
    entropy :
  concat (loader_batches entropy
            (mkDataLoader (mkDataset [s] (Some (seed, size))) bs collate W))
  ≡ₚ s.
Proof.
  assert (∀ W', iter_worker entropy (mkDataset [s] (Some (seed, size))) W' 0
                ≡ₚ s) as Hfirst.
  { intros W'. unfold iter_worker. cbn [shuffling shards].
    rewrite permute_singleton, worker_shards_singleton, decide_True by done.
    rewrite reservoir_Permutation by lia. cbn. by rewrite app_nil_r. }
  unfold loader_batches. cbn [num_workers batch_size dataset].
  destruct (Z.to_nat W) as [|W'].
  - by rewrite batches_concat.
  - cbn [seq fmap list_fmap]. rewrite round_robin_only_first.
    + by rewrite batches_concat.
    + apply Forall_forall. intros q Hq.
      apply list_elem_of_fmap in Hq as (w & -> & Hw).
      apply elem_of_seq in Hw.
      rewrite iter_worker_at_most_one_shard by (cbn; lia). reflexivity.
Qed.

End LoaderProperties.

Section LoaderClaims.
Context {G : Type} `{!RandomGenerator G} {A B : Type}.
Implicit Types (hub : gmap string (gmap string (list (list A)))).
Implicit Types (dl : DataLoader A B) (collate : list A → B).

(** C5: two runs of the loader that [create_dataloader] makes from the
    same stream with the same configuration, and so the same random_seed
    and shuffle_buffer_size, yield the same sequence of batches, whatever
    entropy each run has at hand: the shuffle takes its randomness from
    the seed alone. *)
Theorem loader_deterministic hub name collate split bs size seed W dl1 dl2
    (entropy1 entropy2 : Z) :
  create_dataloader hub name collate split bs size seed W = Ok dl1 →
  create_dataloader hub name collate split bs size seed W = Ok dl2 →
  loader_output entropy1 dl1 = loader_output entropy2 dl2.
Proof.
  intros H1 H2. rewrite H1 in H2. injection H2 as <-.
  apply create_dataloader_Ok in H1 as (splits & s & _ & _ & _ & _ & _ & ->).
  unfold loader_output.
  by rewrite (loader_batches_seeded _ seed size entropy1 entropy2).
Qed.

(** C6: a dataset identifier or a split that does not exist, or a batch
    size that is not positive, makes [create_dataloader] itself raise: no
    loader is returned from which a first batch could be pulled. *)
Theorem create_dataloader_misconfigured hub name collate split bs size seed W :
  hub !! name = None ∨
  (∃ splits, hub !! name = Some splits ∧ splits !! split = None) ∨
  (bs ≤ 0)%Z →
  ∃ e, create_dataloader hub name collate split bs size seed W = Raise e.
Proof.
  unfold create_dataloader, load_dataset, DataLoader_init, shuffle.
  intros [Hname|[(splits & Hname & Hsplit)|Hbs]].
  - rewrite Hname. by eexists.
  - rewrite Hname, Hsplit. by eexists.
  - destruct (hub !! name) as [splits|]; [|by eexists].
    destruct (splits !! split) as [s|]; [|by eexists].
    rewrite result_bind_Ok.
    destruct (decide (seed < 0)%Z) as [Hseed|Hseed]; [by eexists|].
    rewrite result_bind_Ok.
    destruct (decide (W < 0)%Z) as [HW|HW]; [by eexists|].
    rewrite decide_True by done. by eexists.
Qed.

(** C7, as amended: every batch that the loader yields has at least one
    record and at most batch_size records; the k-th pull yields the
    collated k-th batch and, once the batches are used up, every pull
    signals the end of the iteration; at most one batch per worker (one
    batch when there is no worker) is shorter than batch_size; and when at
    most one worker reads records (at most one worker, or a stream of at
    most one shard) only the last batch may be shorter. *)
Theorem loader_batches_bounded hub name collate split bs size seed W dl
    (entropy : Z) :
  create_dataloader hub name collate split bs size seed W = Ok dl →
  Forall (λ b, (1 ≤ length b ≤ Z.to_nat bs)%nat) (loader_batches entropy dl) ∧
  (∀ k, next (advance k (loader_output entropy dl))
        = (λ b, (collate b, drop (S k) (loader_output entropy dl)))
            <$> loader_batches entropy dl !! k) ∧
  (∀ k, (length (loader_batches entropy dl) ≤ k)%nat →
        next (advance k (loader_output entropy dl)) = None) ∧
  (length (short_batches (Z.to_nat bs) (loader_batches entropy dl))
   ≤ 1 `max` Z.to_nat W)%nat ∧
  ((W ≤ 1)%Z ∨ (length (shards (dataset dl)) ≤ 1)%nat →
   only_last_shorter (Z.to_nat bs) (loader_batches entropy dl)).
Proof.
  intros Hdl.
  apply create_dataloader_Ok in Hdl as (splits & s & _ & _ & _ & HW & Hbs & ->).
  set (dl := mkDataLoader (mkDataset s (Some (Some seed, size))) bs collate W).
  split; [|split; [|split; [|split]]].
  - by apply (loader_batches_lengths dl entropy).
  - intros k. apply next_advance_fmap.
  - intros k Hk. unfold loader_output.
    by rewrite next_advance_fmap, lookup_ge_None_2.
  - by apply (loader_short_batches dl entropy).
  - intros Hone.
    destruct (loader_batches_one_reader dl entropy Hone) as [stream ->].
    apply batches_only_last. cbn. lia.
Qed.

(** C8, as amended: with shuffle_buffer_size = 1 the reservoir emits any
    stream in the order it comes in, so every worker reads the records of
    its shards in their order; for a stream that is not sharded the
    loader's batches are the batches of the stream in its own order, and
    the records come out in input order. *)
Theorem loader_order_unsharded hub name collate split bs seed W dl
    (entropy : Z) :
  create_dataloader hub name collate split bs 1 seed W = Ok dl →
  (∀ (X : Type) (g : G) (stream : list X), reservoir 1 g [] stream = stream) ∧
  (∀ workers w,
     iter_worker entropy (dataset dl) workers w
     = concat (worker_shards workers w
                 (permute (default_rng seed) (shards (dataset dl))))) ∧
  (∀ s : list A,
     shards (dataset dl) = [s] →
     loader_batches entropy dl = batches (Z.to_nat bs) s ∧
     concat (loader_batches entropy dl) = s).
Proof.
  intros Hdl.
  apply create_dataloader_Ok in Hdl as (splits & s' & _ & _ & _ & HW & Hbs & ->).
  split; [intros; apply reservoir_one|].
  split; [intros; by apply iter_worker_buffer_one|].
  cbn [dataset shards]. intros s ->.
  assert (loader_batches entropy
            (mkDataLoader (mkDataset [s] (Some (Some seed, 1%positive)))
               bs collate W)
          = batches (Z.to_nat bs) s) as Heq.
  { unfold loader_batches. cbn [num_workers batch_size dataset].
    destruct (Z.to_nat W) as [|W'].
    - by rewrite iter_worker_one_shard.
    - cbn [seq fmap list_fmap].
      rewrite iter_worker_one_shard, decide_True by done.
      apply round_robin_only_first, Forall_forall. intros q Hq.
      apply list_elem_of_fmap in Hq as (w & -> & Hw).
      apply elem_of_seq in Hw.
      rewrite iter_worker_one_shard, decide_False by lia. reflexivity. }
  split; [exact Heq|]. rewrite Heq. apply batches_concat.
Qed.

(** Two shards, two workers: whatever the generator, each worker ends on
    a batch of its own, and the first of the two short batches is not the
    last batch of the pass. *)
Lemma two_workers_batch_lengths (a1 a2 a3 b1 b2 b3 : A) collate seed size
    (entropy : Z) :
  length <$> loader_batches entropy
    (mkDataLoader
       (mkDataset [[a1; a2; a3]; [b1; b2; b3]] (Some (seed, size)))
       2 collate 2)
  = [2; 2; 1; 1]%nat.
Proof.
  unfold loader_batches, iter_worker.
  cbn [num_workers batch_size dataset shards shuffling].
  change (Z.to_nat 2) with 2%nat. cbn [seq fmap list_fmap].
  set (g := default_rng (default entropy seed)).
  assert (∀ x y z : A, ∃ x' y' z',
            reservoir (Pos.to_nat size) g [] (concat [[x; y; z]]) = [x'; y'; z'])
    as Hthree.
  { intros x y z.
    pose proof (length_reservoir (Pos.to_nat size) g [] (concat [[x; y; z]])
                  ltac:(lia)) as Hlen.
    destruct (reservoir _ g [] _) as [|x' [|y' [|z' [|]]]]; try discriminate Hlen.
    by exists x', y', z'. }
  destruct (permute_pair g [a1; a2; a3] [b1; b2; b3]) as [-> | ->];
    change (worker_shards 2 0 [[a1; a2; a3]; [b1; b2; b3]]) with [[a1; a2; a3]];
    change (worker_shards 2 1 [[a1; a2; a3]; [b1; b2; b3]]) with [[b1; b2; b3]];
    change (worker_shards 2 0 [[b1; b2; b3]; [a1; a2; a3]]) with [[b1; b2; b3]];
    change (worker_shards 2 1 [[b1; b2; b3]; [a1; a2; a3]]) with [[a1; a2; a3]];
    destruct (Hthree a1 a2 a3) as (? & ? & ? & ->);
    destruct (Hthree b1 b2 b3) as (? & ? & ? & ->);
    reflexivity.
Qed.

(** Two shards, two workers, batches of one record and a buffer of one
    record: whatever the generator, the records of the two shards come
    out in alternation. *)
Lemma two_workers_alternate (a b c d : A) collate seed (entropy : Z) :
  let batches_of_pass :=
    loader_batches entropy
      (mkDataLoader (mkDataset [[a; b]; [c; d]] (Some (seed, 1%positive)))
         1 collate 2) in
  batches_of_pass = [[a]; [c]; [b]; [d]] ∨
  batches_of_pass = [[c]; [a]; [d]; [b]].
Proof.
  unfold loader_batches, iter_worker.
  cbn [num_workers batch_size dataset shards shuffling].
  change (Z.to_nat 2) with 2%nat. change (Z.to_nat 1) with 1%nat.
  change (Pos.to_nat 1) with 1%nat. cbn [seq fmap list_fmap].
  set (g := default_rng (default entropy seed)).
  destruct (permute_pair g [a; b] [c; d]) as [-> | ->]; [left|right];
    change (worker_shards 2 0 [[a; b]; [c; d]]) with [[a; b]];
    change (worker_shards 2 1 [[a; b]; [c; d]]) with [[c; d]];
    change (worker_shards 2 0 [[c; d]; [a; b]]) with [[c; d]];
    change (worker_shards 2 1 [[c; d]; [a; b]]) with [[a; b]];
    rewrite !reservoir_one; reflexivity.
Qed.

End LoaderClaims.

(** ** The claims on concrete streams *)

Lemma loader_deterministic_witness :
  loader_output (G:=Z) 0 (example_loader [example_stream] 2 3 7 2)
  = loader_output (G:=Z) 1 (example_loader [example_stream] 2 3 7 2).
Proof.
  apply (loader_deterministic example_hub "c4" collate_neel_c4_tokenized
           "train" 2 3%positive 7 2).
  - reflexivity.
  - reflexivity.
Defined.

(** A shuffle without a seed is not determined by the configuration: two
    runs with different entropy differ. *)
Example unseeded_shuffle_differs :
  loader_batches (G:=Z) 0
    (mkDataLoader (mkDataset [[1; 2; 3; 4; 5]%nat] (Some (None, 3%positive)))
       2 (λ b, b) 0)
  ≠ loader_batches (G:=Z) 1
      (mkDataLoader (mkDataset [[1; 2; 3; 4; 5]%nat] (Some (None, 3%positive)))
         2 (λ b, b) 0) ∧
  shuffle (mkDataset [[1; 2; 3; 4; 5]%nat] None) None 3
  = Ok (mkDataset [[1; 2; 3; 4; 5]%nat] (Some (None, 3%positive))).
Proof. split; [vm_compute; discriminate|reflexivity]. Qed.

Lemma create_dataloader_misconfigured_witness :
  ∃ e, create_dataloader example_hub "c4" collate_neel_c4_tokenized
         "validation" 512 10000%positive 0 2 = Raise e.
Proof.
  apply (create_dataloader_misconfigured example_hub "c4"
           collate_neel_c4_tokenized "validation" 512 10000%positive 0 2).
  right. left. eexists. split; reflexivity.
Defined.

Example create_dataloader_unknown_dataset :
  create_dataloader example_hub "nope" collate_neel_c4_tokenized
    "train" 512 10000%positive 0 2
  = Raise (DatasetNotFoundError "nope").
Proof. reflexivity. Qed.

Example create_dataloader_unknown_split :
  create_dataloader example_hub "c4" collate_neel_c4_tokenized
    "validation" 512 10000%positive 0 2
  = Raise (ValueError_bad_split "validation").
Proof. reflexivity. Qed.

Example create_dataloader_batch_size_zero :
  create_dataloader example_hub "c4" collate_neel_c4_tokenized
    "train" 0 10000%positive 0 2
  = Raise (ValueError_batch_size 0).
Proof. reflexivity. Qed.

Example create_dataloader_negative_seed :
  create_dataloader example_hub "c4" collate_neel_c4_tokenized
    "train" 512 10000%positive (-1) 2
  = Raise (ValueError_seed (-1)).
Proof. reflexivity. Qed.

Example create_dataloader_example :
  create_dataloader example_hub "c4" collate_neel_c4_tokenized
    "train" 2 3%positive 7 2
  = Ok (example_loader [example_stream] 2 3 7 2).
Proof. reflexivity. Qed.

(** The claim C7 as it is written does not hold: on the stream in two
    shards with two workers (the default), batch size 2, the pass has the
    batch lengths 2, 2, 1, 1: the third batch is shorter than the batch
    size and is not the last. *)
Lemma loader_short_batch_not_last :
  create_dataloader example_hub "c4-sharded" collate_neel_c4_tokenized
    "train" 2 1%positive 0 2
  = Ok (example_loader example_shards 2 1 0 2) ∧
  length <$> loader_batches (G:=Z) 0 (example_loader example_shards 2 1 0 2)
  = [2; 2; 1; 1]%nat ∧
  ¬ only_last_shorter 2
      (loader_batches (G:=Z) 0 (example_loader example_shards 2 1 0 2)).
Proof.
  split; [reflexivity|].
  assert (length <$> loader_batches (G:=Z) 0
                       (example_loader example_shards 2 1 0 2)
          = [2; 2; 1; 1]%nat) as Hlen by (vm_compute; reflexivity).
  split; [exact Hlen|]. intros H.
  destruct (loader_batches (G:=Z) 0 (example_loader example_shards 2 1 0 2))
    as [|b0 [|b1 [|b2 [|b3 [|]]]]]; try discriminate Hlen.
  specialize (H 2%nat b2 eq_refl ltac:(cbn; lia)).
  injection Hlen as _ _ Hb2 _. lia.
Qed.

Lemma loader_batches_bounded_witness :
  Forall (λ b, (1 ≤ length b ≤ Z.to_nat 2)%nat)
    (loader_batches (G:=Z) 0 (example_loader [example_stream] 2 3 0 2)) ∧
  (∀ k, next (advance k
          (loader_output (G:=Z) 0 (example_loader [example_stream] 2 3 0 2)))
        = (λ b, (collate_neel_c4_tokenized b,
                 drop (S k)
                   (loader_output (G:=Z) 0
                      (example_loader [example_stream] 2 3 0 2))))
            <$> loader_batches (G:=Z) 0
                  (example_loader [example_stream] 2 3 0 2) !! k) ∧
  (∀ k,
     (length (loader_batches (G:=Z) 0
                (example_loader [example_stream] 2 3 0 2)) ≤ k)%nat →
     next (advance k
       (loader_output (G:=Z) 0 (example_loader [example_stream] 2 3 0 2)))
     = None) ∧
  (length (short_batches (Z.to_nat 2)
             (loader_batches (G:=Z) 0
                (example_loader [example_stream] 2 3 0 2)))
   ≤ 1 `max` Z.to_nat 2)%nat ∧
  ((2 ≤ 1)%Z ∨
   (length (shards (dataset (example_loader [example_stream] 2 3 0 2))) ≤ 1)%nat →
   only_last_shorter (Z.to_nat 2)
     (loader_batches (G:=Z) 0 (example_loader [example_stream] 2 3 0 2))).
Proof.
  apply (loader_batches_bounded example_hub "c4" collate_neel_c4_tokenized
           "train" 2 3%positive 0 2).
  reflexivity.
Defined.

Example loader_batches_example :
  length <$> loader_batches (G:=Z) 0 (example_loader [example_stream] 2 3 0 2)
  = [2; 2; 1]%nat.
Proof. vm_compute. reflexivity. Qed.

(** The claim C8 as it is written does not hold: on the stream in two
    shards with a buffer of one record, two workers and batches of one
    record, the records do not come out in the order of the stream. *)
Lemma loader_order_sharded :
  create_dataloader example_hub "c4-sharded" collate_neel_c4_tokenized
    "train" 1 1%positive 0 2
  = Ok (example_loader example_shards 1 1 0 2) ∧
  concat (loader_batches (G:=Z) 0 (example_loader example_shards 1 1 0 2))
  ≠ concat example_shards.
Proof.
  split; [reflexivity|]. intros H.
  apply (f_equal (fmap (λ r : record, r !! "tokens"))) in H.
  vm_compute in H. discriminate H.
Qed.

(** Without workers the shards still come in the permuted order. *)
Example loader_order_sharded_no_worker :
  (λ r : record, r !! "tokens") <$>
    concat (loader_batches (G:=Z) 0 (example_loader example_shards 2 1 0 0))
  = Some <$> [int_row [4]; int_row [5]; int_row [6];
              int_row [1]; int_row [2]; int_row [3]].
Proof. vm_compute. reflexivity. Qed.

Lemma loader_order_unsharded_witness :
  (∀ (X : Type) (g : Z) (stream : list X), reservoir 1 g [] stream = stream) ∧
  (∀ workers w,
     iter_worker 0 (dataset (example_loader [example_stream] 2 1 0 2)) workers w
     = concat (worker_shards workers w
                 (permute (default_rng 0)
                    (shards (dataset (example_loader [example_stream] 2 1 0 2)))))) ∧
  (∀ s : list record,
     shards (dataset (example_loader [example_stream] 2 1 0 2)) = [s] →
     loader_batches (G:=Z) 0 (example_loader [example_stream] 2 1 0 2)
     = batches (Z.to_nat 2) s ∧
     concat (loader_batches (G:=Z) 0 (example_loader [example_stream] 2 1 0 2))
     = s).
Proof.
  apply (loader_order_unsharded example_hub "c4" collate_neel_c4_tokenized
           "train" 2 0 2).
  reflexivity.
Defined.

Example loader_order_unsharded_example :
  concat (loader_batches (G:=Z) 0 (example_loader [example_stream] 2 1 0 2))
  = example_stream.
Proof. vm_compute. reflexivity. Qed.

(** * Further properties of the collators and the factory *)

(** ** Missing fields *)

Lemma mapM_getitem_missing key (b1 b2 : list record) (r : record) :
  Forall (λ r', is_Some (r' !! key)) b1 → r !! key = None →
  mapM (getitem key) (b1 ++ r :: b2) = Raise (KeyError key).
Proof.
  intros Hb1 Hr.
  assert (getitem key r = Raise (KeyError key)) as Hraise
    by (unfold getitem; by rewrite Hr).
  induction Hb1 as [|r' b1 [v Hv] _ IH]; simpl app.
  - rewrite mapM_cons, Hraise. reflexivity.
  - rewrite mapM_cons, IH. unfold getitem. rewrite Hv. reflexivity.
Qed.

(** X1: when a record of the batch has no "tokens" field and the records
    before it have one, the pretokenized collator raises [KeyError] for
    "tokens", whatever the fields hold and whatever follows: the key
    error comes before any check of the lengths. *)
Theorem collate_neel_c4_tokenized_missing_tokens
    (b1 b2 : list record) (r : record) :
  Forall (λ r', is_Some (r' !! "tokens")) b1 →
  r !! "tokens" = None →
  collate_neel_c4_tokenized (b1 ++ r :: b2) = Raise (KeyError "tokens").
Proof.
  intros Hb1 Hr. unfold collate_neel_c4_tokenized.
  by rewrite mapM_getitem_missing.
Qed.

Lemma collate_neel_c4_tokenized_missing_tokens_witness :
  collate_neel_c4_tokenized
    ([tokens_record [1; 2; 3]; tokens_record [4]]
       ++ text_record "a" :: [tokens_record [5; 6]])
  = Raise (KeyError "tokens").
Proof.
  apply (collate_neel_c4_tokenized_missing_tokens
           [tokens_record [1; 2; 3]; tokens_record [4]]
           [tokens_record [5; 6]] (text_record "a")).
  - repeat constructor; eexists; reflexivity.
  - reflexivity.
Defined.

(** X2: when a record of the batch has no "text" field and the records
    before it have one, the raw-text collator raises [KeyError] for "text"
    and the tokenizer is not called: its state is as before, and a
    recording tokenizer has logged nothing. *)
Theorem collate_pile_no_text_field {St} (tokenizer : Tokenizer St) (s : St)
    (log : list tokenizer_call) (b1 b2 : list record) (r : record) :
  Forall (λ r', is_Some (r' !! "text")) b1 →
  r !! "text" = None →
  collate_pile (b1 ++ r :: b2) tokenizer s = (Raise (KeyError "text"), s) ∧
  collate_pile (b1 ++ r :: b2) (recording tokenizer) (s, log)
  = (Raise (KeyError "text"), (s, log)).
Proof.
  intros Hb1 Hr. unfold collate_pile, mbind, eff_bind, lift.
  by rewrite mapM_getitem_missing.
Qed.

Lemma collate_pile_no_text_field_witness :
  collate_pile ([text_record "a"] ++ tokens_record [1] :: [text_record "b"])
    (byte_tokenizer 0) ()
  = (Raise (KeyError "text"), ()) ∧
  collate_pile ([text_record "a"] ++ tokens_record [1] :: [text_record "b"])
    (recording (byte_tokenizer 0)) ((), [])
  = (Raise (KeyError "text"), ((), [])).
Proof.
  apply (collate_pile_no_text_field (byte_tokenizer 0) () []
           [text_record "a"] [text_record "b"] (tokens_record [1])).
  - repeat constructor; eexists; reflexivity.
  - reflexivity.
Defined.

(** ** When the pretokenized collator returns *)

(** X3: on a batch whose records all hold a sequence of token ids that
    fit 64 bits, the pretokenized collator returns tensors exactly when
    the first sequence is empty (the tensor then has no elements and the
    other sequences are not looked at) or all the sequences have one
    length (as in every batch of no or one record); otherwise it
    raises. *)
Theorem collate_neel_c4_tokenized_returns_iff
    (batch : list record) (rows : list (list Z)) :
  Forall2 (λ r row, r !! "tokens" = Some (int_row row) ∧ Forall int64 row)
    batch rows →
  (∃ ids mask, collate_neel_c4_tokenized batch = Ok (ids, mask)) ↔
  head rows = Some [] ∨ (∃ len, Forall (λ row, length row = len) rows).
Proof.
  intros H.
  destruct (tokens_of_rows _ _ _ H) as (Htokens & Hrange & _).
  unfold collate_neel_c4_tokenized. rewrite Htokens, result_bind_Ok.
  destruct rows as [|row rows].
  - split; [right; by exists 0%nat|]. intros _. by eexists _, _.
  - destruct (decide (row = [])) as [->|Hrow].
    { rewrite torch_tensor_first_empty.
      split; [by left|]. intros _. by eexists _, _. }
    destruct (decide (Forall (λ r, length r = length row) (row :: rows)))
      as [Hall|Hnot].
    + split; [right; by exists (length row)|]. intros _.
      rewrite (torch_tensor_rows (length row)) by done. by eexists _, _.
    + apply not_Forall_Exists in Hnot; [|apply _].
      destruct (torch_tensor_ragged row rows Hrow Hnot) as (e & -> & _).
      split; [by intros (? & ? & ?)|].
      intros [Hhead|[len Hlen]]; [cbn in Hhead; congruence|]. exfalso.
      apply Exists_exists in Hnot as (r & Hr & Hne).
      pose proof (Forall_inv Hlen) as Hlen0. cbn in Hlen0.
      rewrite Forall_forall in Hlen. specialize (Hlen r Hr). cbn in Hne. lia.
Qed.

Lemma collate_neel_c4_tokenized_returns_iff_witness :
  (∃ ids mask,
     collate_neel_c4_tokenized [tokens_record []; tokens_record [3; 4]]
     = Ok (ids, mask)) ↔
  head [[]; [3; 4]] = Some [] ∨
  (∃ len, Forall (λ row : list Z, length row = len) [[]; [3; 4]]).
Proof.
  apply (collate_neel_c4_tokenized_returns_iff
           [tokens_record []; tokens_record [3; 4]] [[]; [3; 4]]).
  repeat constructor; unfold int64; lia.
Defined.

(** ** What the returned tensors hold *)

Lemma mapM_Ok_inv {A B} (f : A → result B) (l : list A) (k : list B) :
  mapM f l = Ok k → Forall2 (λ x y, f x = Ok y) l k.
Proof.
  revert k. induction l as [|x l IH]; intros k Hk.
  - injection Hk as <-. constructor.
  - rewrite mapM_cons in Hk. destruct (f x) as [y|] eqn:Hx; [|discriminate].
    rewrite result_bind_Ok in Hk.
    destruct (mapM f l) as [k'|]; [|discriminate].
    injection Hk as <-. constructor; [done|]. by apply IH.
Qed.

Lemma length_concat_uniform {X} n (ls : list (list X)) :
  Forall (λ l, length l = n) ls → length (concat ls) = (length ls * n)%nat.
Proof.
  induction 1 as [|l ls Hl _ IH]; [done|]. cbn. rewrite length_app. lia.
Qed.

Lemma recursive_store_length sizes dim (v : value) (d : list Z) :
  recursive_store dim sizes v = Ok d → length d = size_product sizes.
Proof.
  revert dim v d. induction sizes as [|n sizes IH]; intros dim v d Hd.
  - destruct v as [|z|]; try discriminate.
    rewrite recursive_store_scalar in Hd. case_decide; [|discriminate].
    by injection Hd as <-.
  - destruct v as [| |l]; try discriminate.
    rewrite recursive_store_list in Hd. case_decide as Hn; [|discriminate].
    destruct (mapM _ l) as [ds|] eqn:Hds; [|discriminate].
    injection Hd as <-. apply mapM_Ok_inv in Hds.
    rewrite (length_concat_uniform (size_product sizes)).
    + apply Forall2_length in Hds. by rewrite <- Hds, Hn.
    + eapply Forall2_Forall_r; [exact Hds|]. apply Forall_forall.
      intros x _ y Hy. by eapply IH.
Qed.

Lemma compute_sizes_head (l : list value) sizes :
  compute_sizes (VList l) = Ok sizes → head sizes = Some (length l).
Proof.
  destruct l as [|x l]; cbn.
  - by intros [= <-].
  - destruct (compute_sizes x); [|discriminate]. by intros [= <-].
Qed.

Lemma mapM_length {A B} (f : A → result B) (l : list A) (k : list B) :
  mapM f l = Ok k → length k = length l.
Proof. intros H. apply mapM_Ok_inv in H. symmetry. by eapply Forall2_length. Qed.

(** X4: whenever the pretokenized collator returns, on any batch: the
    first size of ids is the number of records, ids holds as many
    elements as its sizes multiply to, and mask has the sizes of ids and
    that many elements, every one 1. *)
Theorem collate_neel_c4_tokenized_returned (batch : list record)
    (ids mask : Tensor) :
  collate_neel_c4_tokenized batch = Ok (ids, mask) →
  head (shape ids) = Some (length batch) ∧
  length (data ids) = size_product (shape ids) ∧
  shape mask = shape ids ∧
  data mask = replicate (size_product (shape ids)) 1.
Proof.
  unfold collate_neel_c4_tokenized, torch_tensor. intros H.
  destruct (mapM (getitem "tokens") batch) as [tokens|] eqn:Htokens;
    [|discriminate].
  rewrite result_bind_Ok in H.
  destruct (compute_sizes (VList tokens)) as [sizes|] eqn:Hsizes;
    [|discriminate].
  rewrite !result_bind_Ok in H.
  case_decide; [discriminate|].
  destruct (infer_scalar_type (VList tokens)) as [t|]; [|discriminate].
  rewrite !result_bind_Ok in H.
  apply compute_sizes_head in Hsizes. apply mapM_length in Htokens.
  case_decide as Hzero.
  - rewrite !result_bind_Ok in H. injection H as <- <-.
    cbn [shape data torch_ones_like]. rewrite Hzero, Hsizes, Htokens.
    by repeat split.
  - destruct (recursive_store 0 sizes (VList tokens)) as [d|] eqn:Hd;
      [|discriminate].
    rewrite !result_bind_Ok in H. injection H as <- <-.
    apply recursive_store_length in Hd. cbn [shape data torch_ones_like].
    repeat split.
    + by rewrite Hsizes, Htokens.
    + done.
    + by rewrite fmap_ones_replicate, Hd.
Qed.

Lemma collate_neel_c4_tokenized_returned_witness :
  head (shape (mkTensor [2; 3]%nat [1; 2; 3; 4; 5; 6]))
  = Some (length [tokens_record [1; 2; 3]; tokens_record [4; 5; 6]]) ∧
  length (data (mkTensor [2; 3]%nat [1; 2; 3; 4; 5; 6]))
  = size_product (shape (mkTensor [2; 3]%nat [1; 2; 3; 4; 5; 6])) ∧
  shape (mkTensor [2; 3]%nat [1; 1; 1; 1; 1; 1])
  = shape (mkTensor [2; 3]%nat [1; 2; 3; 4; 5; 6]) ∧
  data (mkTensor [2; 3]%nat [1; 1; 1; 1; 1; 1])
  = replicate (size_product (shape (mkTensor [2; 3]%nat [1; 2; 3; 4; 5; 6]))) 1.
Proof.
  apply (collate_neel_c4_tokenized_returned
           [tokens_record [1; 2; 3]; tokens_record [4; 5; 6]]).
  vm_compute. reflexivity.
Defined.

(** X5: collating two batches of sequences of one length of token ids
    that fit 64 bits, one after the other in one batch, stacks the rows of
    the first on the rows of the second: the elements of ids and of mask
    are those of the first batch followed by those of the second, and the
    numbers of rows add up. *)
Theorem collate_neel_c4_tokenized_app (b1 b2 : list record)
    (rows1 rows2 : list (list Z)) (len : nat) :
  b1 ≠ [] → b2 ≠ [] →
  Forall2 (λ r row, r !! "tokens" = Some (int_row row) ∧
                    length row = len ∧ Forall int64 row)
    b1 rows1 →
  Forall2 (λ r row, r !! "tokens" = Some (int_row row) ∧
                    length row = len ∧ Forall int64 row)
    b2 rows2 →
  ∃ ids1 mask1 ids2 mask2 ids mask,
    collate_neel_c4_tokenized b1 = Ok (ids1, mask1) ∧
    collate_neel_c4_tokenized b2 = Ok (ids2, mask2) ∧
    collate_neel_c4_tokenized (b1 ++ b2) = Ok (ids, mask) ∧
    shape ids = [(length b1 + length b2)%nat; len] ∧
    data ids = data ids1 ++ data ids2 ∧
    data mask = data mask1 ++ data mask2 ∧
    tolist2 ids = Some (rows1 ++ rows2).
Proof.
  intros Hne1 Hne2 H1 H2.
  pose proof (Forall2_app H1 H2) as H12.
  destruct (tokens_of_rows _ _ _ H1) as (Ht1 & [Hr1 Hi1]%Forall_and & Hl1).
  destruct (tokens_of_rows _ _ _ H2) as (Ht2 & [Hr2 Hi2]%Forall_and & Hl2).
  destruct (tokens_of_rows _ _ _ H12) as (Ht12 & [Hr12 Hi12]%Forall_and & Hl12).
  assert (rows1 ≠ []) by (intros ->; by destruct b1).
  assert (rows2 ≠ []) by (intros ->; by destruct b2).
  assert (rows1 ++ rows2 ≠ []) by (by destruct rows1).
  unfold collate_neel_c4_tokenized.
  rewrite Ht1, Ht2, Ht12, !result_bind_Ok.
  rewrite !(torch_tensor_rows len) by done. rewrite !result_bind_Ok.
  eexists _, _, _, _, _, _. repeat split.
  - cbn. by rewrite length_app, Hl1, Hl2.
  - cbn. by rewrite concat_app.
  - cbn. by rewrite concat_app, fmap_app.
  - unfold tolist2. cbn [shape data]. by rewrite (rows_of_concat len).
Qed.

Lemma collate_neel_c4_tokenized_app_witness :
  ∃ ids1 mask1 ids2 mask2 ids mask,
    collate_neel_c4_tokenized [tokens_record [1; 2]] = Ok (ids1, mask1) ∧
    collate_neel_c4_tokenized [tokens_record [3; 4]; tokens_record [5; 6]]
    = Ok (ids2, mask2) ∧
    collate_neel_c4_tokenized
      ([tokens_record [1; 2]] ++ [tokens_record [3; 4]; tokens_record [5; 6]])
    = Ok (ids, mask) ∧
    shape ids = [(1 + 2)%nat; 2%nat] ∧
    data ids = data ids1 ++ data ids2 ∧
    data mask = data mask1 ++ data mask2 ∧
    tolist2 ids = Some ([[1; 2]] ++ [[3; 4]; [5; 6]]).
Proof.
  apply (collate_neel_c4_tokenized_app
           [tokens_record [1; 2]] [tokens_record [3; 4]; tokens_record [5; 6]]
           [[1; 2]] [[3; 4]; [5; 6]] 2).
  - discriminate.
  - discriminate.
  - repeat constructor; unfold int64; lia.
  - repeat constructor; unfold int64; lia.
Defined.

(** ** What the factory returns *)

Lemma concat_Permutation {X} (l1 l2 : list (list X)) :
  l1 ≡ₚ l2 → concat l1 ≡ₚ concat l2.
Proof.
  induction 1 as [|x l1 l2 _ IH|x y l|l1 l2 l3 _ IH1 _ IH2]; cbn.
  - done.
  - by rewrite IH.
  - rewrite !app_assoc. apply Permutation_app_tail, Permutation_app_comm.
  - by etrans.
Qed.

Lemma concat_fmap_Permutation {X Y} (f g : X → list Y) (l : list X) :
  (∀ x, f x ≡ₚ g x) → concat (f <$> l) ≡ₚ concat (g <$> l).
Proof.
  intros Hfg. induction l as [|x l IH]; [done|]. cbn. by rewrite Hfg, IH.
Qed.

Lemma concat_fmap_app {X Y} (f g : X → list Y) (l : list X) :
  concat ((λ x, f x ++ g x) <$> l) ≡ₚ concat (f <$> l) ++ concat (g <$> l).
Proof.
  induction l as [|x l IH]; [done|]. cbn. rewrite IH.
  rewrite <- !app_assoc. apply Permutation_app_head.
  rewrite !app_assoc. apply Permutation_app_tail, Permutation_app_comm.
Qed.

Lemma concat_concat_fmap {X} (l : list (list (list X))) :
  concat (concat l) = concat (@concat X <$> l).
Proof.
  induction l as [|x l IH]; [done|]. cbn. by rewrite concat_app, IH.
Qed.

Lemma concat_only_at {X} (m : nat) (x : X) (l : list nat) :
  NoDup l → m ∈ l →
  concat ((λ w, if decide (m = w) then [x] else []) <$> l) = [x].
Proof.
  intros Hnd Hm. induction Hnd as [|w l Hw _ IH]; [by apply elem_of_nil in Hm|].
  cbn. case_decide as Heq.
  - subst w. cbn. f_equal.
    clear IH Hm. induction l as [|w l IH]; [done|]. cbn.
    rewrite decide_False by (intros ->; apply Hw; by left).
    apply IH. intros Hin. apply Hw. by right.
  - cbn. apply IH. apply elem_of_cons in Hm as [->|Hm]; done.
Qed.

(** The workers' shares make up the shards: every shard goes to one
    worker. *)
Lemma worker_shards_from_partition {X} W k (l : list X) :
  (0 < W)%nat →
  concat ((λ w,
             omap (λ '(i, s),
                     if decide (i `mod` W = w)%nat then Some s else None)
               (imap (λ i y, ((k + i)%nat, y)) l)) <$> seq 0 W)
  ≡ₚ l.
Proof.
  intros HW. revert k. induction l as [|x l IH]; intros k.
  - cbn. induction (seq 0 W) as [|w ws IHw]; [done|]. by cbn.
  - rewrite imap_cons.
    rewrite (imap_ext _ (λ i y, ((S k + i)%nat, y)))
      by (intros i y _; cbn; f_equal; lia).
    etrans.
    { apply (concat_fmap_Permutation _
               (λ w, (if decide (((k + 0) `mod` W)%nat = w) then [x] else [])
                     ++ omap (λ '(i, s),
                                if decide (i `mod` W = w)%nat then Some s
                                else None)
                          (imap (λ i y, ((S k + i)%nat, y)) l))).
      intros w. cbn. by case_decide. }
    rewrite concat_fmap_app, IH.
    rewrite concat_only_at; [done|apply NoDup_seq|].
    apply elem_of_seq. pose proof (Nat.mod_upper_bound (k + 0) W). lia.
Qed.

Lemma worker_shards_partition {X} W (l : list X) :
  (0 < W)%nat →
  concat ((λ w, worker_shards W w l) <$> seq 0 W) ≡ₚ l.
Proof. intros HW. by apply (worker_shards_from_partition W 0). Qed.

Section FactoryProperties.
Context {G : Type} `{!RandomGenerator G} {A B : Type}.
Implicit Types (hub : gmap string (gmap string (list (list A)))).
Implicit Types (dl : DataLoader A B) (collate : list A → B).

Lemma iter_worker_Permutation (d : IterableDataset A) W (entropy : Z) :
  ∃ shards', shards' ≡ₚ shards d ∧
    ∀ w, iter_worker entropy d W w ≡ₚ concat (worker_shards W w shards').
Proof.
  unfold iter_worker. destruct (shuffling d) as [[seed size]|].
  - exists (permute (default_rng (default entropy seed)) (shards d)).
    split; [apply permute_Permutation|]. intros w.
    rewrite reservoir_Permutation by lia. done.
  - by exists (shards d).
Qed.

Lemma iter_workers_Permutation (d : IterableDataset A) W (entropy : Z) :
  (0 < W)%nat →
  concat ((λ w, iter_worker entropy d W w) <$> seq 0 W) ≡ₚ concat (shards d).
Proof.
  intros HW.
  destruct (iter_worker_Permutation d W entropy) as (sh & Hsh & Hiw).
  rewrite (concat_fmap_Permutation _ (λ w, concat (worker_shards W w sh)))
    by done.
  change (concat ((λ w, concat (worker_shards W w sh)) <$> seq 0 W))
    with (concat ((@concat A ∘ (λ w, worker_shards W w sh)) <$> seq 0 W)).
  rewrite list_fmap_compose, <- concat_concat_fmap.
  rewrite (concat_Permutation _ _ (worker_shards_partition W sh HW)).
  by apply concat_Permutation.
Qed.

Lemma loader_batches_Permutation dl (entropy : Z) :
  concat (loader_batches entropy dl) ≡ₚ concat (shards (dataset dl)).
Proof.
  unfold loader_batches. destruct (Z.to_nat (num_workers dl)) as [|W'].
  - rewrite batches_concat.
    pose proof (iter_workers_Permutation (dataset dl) 1 entropy ltac:(lia))
      as H1. cbn in H1. by rewrite app_nil_r in H1.
  - rewrite (concat_Permutation _ _ (round_robin_Permutation _)).
    rewrite concat_concat_fmap, <- list_fmap_compose.
    etrans; [|apply (iter_workers_Permutation (dataset dl) (S W') entropy); lia].
    apply concat_fmap_Permutation. intros w. cbn. by rewrite batches_concat.
Qed.

(** X6: the loader that [create_dataloader] returns reads the stream that
    the hub has under the given name and split, shuffles it with the
    given buffer size and always with the given seed, and holds the given
    collate function, a positive batch size and a worker count that is
    not negative. *)
Theorem create_dataloader_returned hub name collate split bs size seed W dl :
  create_dataloader hub name collate split bs size seed W = Ok dl →
  (∃ splits, hub !! name = Some splits ∧
             splits !! split = Some (shards (dataset dl))) ∧
  shuffling (dataset dl) = Some (Some seed, size) ∧
  collate_fn dl = collate ∧
  batch_size dl = bs ∧ (0 < bs)%Z ∧
  num_workers dl = W ∧ (0 ≤ W)%Z.
Proof.
  intros Hdl.
  apply create_dataloader_Ok in Hdl as (splits & s & Hn & Hs & _ & HW & Hbs & ->).
  cbn. repeat split; try done. by exists splits.
Qed.

(** X7: a pass over the loader that [create_dataloader] returns yields
    every record of the stream once: the records of the batches, taken
    together, are the records of the shards, whatever the buffer size,
    the seed and the number of workers. *)
Theorem loader_yields_every_record hub name collate split bs size seed W dl
    (entropy : Z) :
  create_dataloader hub name collate split bs size seed W = Ok dl →
  ∃ splits s,
    hub !! name = Some splits ∧ splits !! split = Some s ∧
    concat (loader_batches entropy dl) ≡ₚ concat s.
Proof.
  intros Hdl.
  pose proof (loader_batches_Permutation dl entropy) as Hperm.
  apply create_dataloader_Ok in Hdl as (splits & s & Hn & Hs & _ & _ & _ & ->).
  by exists splits, s.
Qed.

End FactoryProperties.

Lemma elem_of_concat {X} (x : X) (l : list X) (ls : list (list X)) :
  l ∈ ls → x ∈ l → x ∈ concat ls.
Proof.
  intros Hl Hx. induction ls as [|l' ls IH]; [by apply elem_of_nil in Hl|].
  cbn. apply elem_of_app. apply elem_of_cons in Hl as [->|Hl]; auto.
Qed.

Lemma batches_from_first_full {X} bs (current stream : list X) :
  (length current < bs)%nat → (bs ≤ length current + length stream)%nat →
  ∃ b rest, batches_from bs current stream = b :: rest ∧ length b = bs.
Proof.
  revert current. induction stream as [|x stream IH]; intros current Hcur Hlen.
  - cbn in Hlen. lia.
  - cbn [batches_from]. cbv zeta. case_decide as Hfull.
    + by eexists _, _.
    + apply IH; rewrite length_app in *; cbn in *; lia.
Qed.

Lemma collate_neel_of_rows (batch : list record) (rows : list (list Z)) len :
  batch ≠ [] →
  Forall2 (λ r row, r !! "tokens" = Some (int_row row) ∧
                    length row = len ∧ Forall int64 row)
    batch rows →
  collate_neel_c4_tokenized batch
  = Ok (mkTensor [length batch; len] (concat rows),
        torch_ones_like (mkTensor [length batch; len] (concat rows))).
Proof.
  intros Hne H.
  destruct (tokens_of_rows _ _ _ H) as (Htokens & [Hrows Hrange]%Forall_and & Hlen).
  assert (rows ≠ []) as Hne' by (intros ->; by destruct batch).
  unfold collate_neel_c4_tokenized.
  rewrite Htokens, result_bind_Ok, (torch_tensor_rows len) by done.
  by rewrite result_bind_Ok, Hlen.
Qed.

Section FactoryOnStreams.
Context {G : Type} `{!RandomGenerator G}.

Lemma loader_batches_unsharded {A B} (s : list A) seed size bs
    (collate : list A → B) W (entropy : Z) :
  ∃ stream, stream ≡ₚ s ∧
    loader_batches entropy
      (mkDataLoader (mkDataset [s] (Some (seed, size))) bs collate W)
    = batches (Z.to_nat bs) stream.
Proof.
  assert (∀ W', iter_worker entropy (mkDataset [s] (Some (seed, size))) W' 0
                ≡ₚ s) as Hfirst.
  { intros W'. unfold iter_worker. cbn [shuffling shards].
    rewrite permute_singleton, worker_shards_singleton, decide_True by done.
    rewrite reservoir_Permutation by lia. cbn. by rewrite app_nil_r. }
  unfold loader_batches. cbn [num_workers batch_size dataset].
  destruct (Z.to_nat W) as [|W'];
    [eexists; split; [apply (Hfirst 1%nat)|reflexivity]|].
  eexists. split; [apply (Hfirst (S W'))|].
  cbn [seq fmap list_fmap]. apply round_robin_only_first, Forall_forall.
  intros q Hq. apply list_elem_of_fmap in Hq as (w & -> & Hw).
  apply elem_of_seq in Hw.
  rewrite iter_worker_at_most_one_shard by (cbn; lia). reflexivity.
Qed.

(** X8: over a stream whose records all hold a sequence of [len] token
    ids that fit 64 bits, every batch that the loader made with the
    pretokenized collator yields is a pair of tensors of shape [(n, len)]
    with 1 <= n <= batch_size: no pull raises, and the collator never sees
    an empty batch. *)
Theorem loader_collates_pretokenized
    (hub : gmap string (gmap string (list (list record))))
    name split bs size seed W dl (len : nat) (entropy : Z) :
  create_dataloader hub name collate_neel_c4_tokenized split bs size seed W
  = Ok dl →
  Forall (λ r : record,
            ∃ row, r !! "tokens" = Some (int_row row) ∧
                   length row = len ∧ Forall int64 row)
    (concat (shards (dataset dl))) →
  Forall (λ out,
            ∃ ids mask n,
              out = Ok (ids, mask) ∧
              shape ids = [n; len] ∧ shape mask = [n; len] ∧
              (1 ≤ n ≤ Z.to_nat bs)%nat)
    (loader_output entropy dl).
Proof.
  intros Hdl Hrecords.
  pose proof (loader_batches_Permutation dl entropy) as Hperm.
  apply create_dataloader_Ok in Hdl as (splits & s & _ & _ & _ & _ & Hbs & ->).
  pose proof (loader_batches_lengths
                (mkDataLoader (mkDataset s (Some (Some seed, size))) bs
                   collate_neel_c4_tokenized W) entropy Hbs) as Hlens.
  unfold loader_output. cbn [collate_fn]. apply Forall_fmap, Forall_forall.
  intros b Hb. rewrite Forall_forall in Hlens. specialize (Hlens b Hb).
  cbn [batch_size] in Hlens.
  assert (Forall (λ r : record,
            ∃ row, r !! "tokens" = Some (int_row row) ∧
                   length row = len ∧ Forall int64 row) b)
    as Hb_records.
  { apply Forall_forall. intros r Hr.
    rewrite Forall_forall in Hrecords. apply Hrecords.
    rewrite <- Hperm. by eapply elem_of_concat. }
  apply Forall_exists_Forall2_l in Hb_records as [rows Hrows].
  cbn. rewrite (collate_neel_of_rows b rows len);
    [|intros ->; cbn in Hlens; lia|done].
  by eexists _, _, (length b).
Qed.

(** X9: over a stream that is not sharded and has at least batch_size
    records, the first batch that the loader yields has exactly
    batch_size records, for every buffer size, seed and worker count. *)
Theorem loader_first_batch_full {A B}
    (hub : gmap string (gmap string (list (list A))))
    name (collate : list A → B) split bs size seed W dl (s : list A)
    (entropy : Z) :
  create_dataloader hub name collate split bs size seed W = Ok dl →
  shards (dataset dl) = [s] →
  (Z.to_nat bs ≤ length s)%nat →
  ∃ b rest,
    loader_batches entropy dl = b :: rest ∧ length b = Z.to_nat bs.
Proof.
  intros Hdl Hs Hlen.
  apply create_dataloader_Ok in Hdl as (splits & s' & _ & _ & _ & _ & Hbs & ->).
  cbn in Hs. subst s'.
  destruct (loader_batches_unsharded s (Some seed) size bs collate W entropy)
    as (stream & Hperm & ->).
  apply batches_from_first_full; [cbn; lia|].
  rewrite (Permutation_length Hperm). cbn. lia.
Qed.

End FactoryOnStreams.

Lemma create_dataloader_returned_witness :
  (∃ splits, example_hub !! "c4" = Some splits ∧
             splits !! "train"
             = Some (shards (dataset (example_loader [example_stream] 2 3 7 2)))) ∧
  shuffling (dataset (example_loader [example_stream] 2 3 7 2))
  = Some (Some 7, 3%positive) ∧
  collate_fn (example_loader [example_stream] 2 3 7 2)
  = collate_neel_c4_tokenized ∧
  batch_size (example_loader [example_stream] 2 3 7 2) = 2 ∧ (0 < 2)%Z ∧
  num_workers (example_loader [example_stream] 2 3 7 2) = 2 ∧ (0 ≤ 2)%Z.
Proof.
  apply (create_dataloader_returned example_hub "c4"
           collate_neel_c4_tokenized "train" 2 3%positive 7 2).
  reflexivity.
Defined.

Lemma loader_yields_every_record_witness :
  ∃ splits s,
    example_hub !! "c4-sharded" = Some splits ∧ splits !! "train" = Some s ∧
    concat (loader_batches (G:=Z) 0 (example_loader example_shards 2 2 5 2))
    ≡ₚ concat s.
Proof.
  apply (loader_yields_every_record example_hub "c4-sharded"
           collate_neel_c4_tokenized "train" 2 2%positive 5 2).
  reflexivity.
Defined.

Lemma loader_collates_pretokenized_witness :
  Forall (λ out,
            ∃ ids mask n,
              out = Ok (ids, mask) ∧
              shape ids = [n; 1%nat] ∧ shape mask = [n; 1%nat] ∧
              (1 ≤ n ≤ Z.to_nat 2)%nat)
    (loader_output (G:=Z) 0 (example_loader example_shards 2 2 5 2)).
Proof.
  apply (loader_collates_pretokenized example_hub "c4-sharded" "train"
           2 2%positive 5 2).
  - reflexivity.
  - repeat constructor; eexists;
      (split; [reflexivity|split; [reflexivity|]]);
      repeat constructor; unfold int64; lia.
Defined.

Lemma loader_first_batch_full_witness :
  ∃ b rest,
    loader_batches (G:=Z) 0 (example_loader [example_stream] 2 3 7 2)
    = b :: rest ∧ length b = Z.to_nat 2.
Proof.
  apply (loader_first_batch_full example_hub "c4" collate_neel_c4_tokenized
           "train" 2 3%positive 7 2 _ example_stream).
  - reflexivity.
  - reflexivity.
  - vm_compute. lia.
Defined.

(** ** When the factory returns, and how many batches *)

(** X10: [create_dataloader] returns a loader exactly when the hub has
    the dataset and the split, the random seed is not negative, the batch
    size is positive and the worker count is not negative; in every
    other case it raises. *)
Theorem create_dataloader_returns_iff {A B}
    (hub : gmap string (gmap string (list (list A))))
    name (collate : list A → B) split bs size seed W :
  (∃ dl, create_dataloader hub name collate split bs size seed W = Ok dl) ↔
  (∃ splits s, hub !! name = Some splits ∧ splits !! split = Some s) ∧
  (0 ≤ seed)%Z ∧ (0 < bs)%Z ∧ (0 ≤ W)%Z.
Proof.
  split.
  - intros [dl Hdl].
    apply create_dataloader_Ok
      in Hdl as (splits & s & Hn & Hs & Hseed & HW & Hbs & _).
    split; [by exists splits, s|done].
  - intros ((splits & s & Hn & Hs) & Hseed & Hbs & HW).
    eexists. apply create_dataloader_Ok. by exists splits, s.
Qed.

Example create_dataloader_negative_workers :
  create_dataloader example_hub "c4" collate_neel_c4_tokenized
    "train" 512 10000%positive 0 (-1)
  = Raise (ValueError_num_workers (-1)).
Proof. reflexivity. Qed.

Lemma batches_from_count {X} bs (current stream : list X) :
  (length current < bs)%nat →
  length (batches_from bs current stream)
  = ((length current + length stream + (bs - 1)) `div` bs)%nat.
Proof.
  revert current. induction stream as [|x stream IH]; intros current Hcur.
  - destruct current as [|y current]; cbn [batches_from length].
    + symmetry. apply Nat.div_small. lia.
    + apply (Nat.div_unique _ _ _ (length current)); cbn in *; lia.
  - cbn [batches_from]. cbv zeta. case_decide as Hfull.
    + cbn [length]. rewrite IH by (cbn; lia).
      rewrite length_app in Hfull. cbn in Hfull. cbn [length].
      replace (length current + S (length stream) + (bs - 1))%nat
        with (0 + length stream + (bs - 1) + 1 * bs)%nat by lia.
      rewrite Nat.div_add by lia. lia.
    + rewrite IH by (rewrite length_app in *; cbn in *; lia).
      rewrite length_app. cbn [length]. f_equal. lia.
Qed.

Section BatchCount.
Context {G : Type} `{!RandomGenerator G}.

(** X11: over a stream of n records that is not sharded the loader
    yields n / batch_size batches, rounded up, for every buffer size,
    seed and worker count; over an empty stream it yields none. *)
Theorem loader_batch_count {A B}
    (hub : gmap string (gmap string (list (list A))))
    name (collate : list A → B) split bs size seed W dl (s : list A)
    (entropy : Z) :
  create_dataloader hub name collate split bs size seed W = Ok dl →
  shards (dataset dl) = [s] →
  length (loader_output entropy dl)
  = ((length s + (Z.to_nat bs - 1)) `div` Z.to_nat bs)%nat.
Proof.
  intros Hdl Hs.
  apply create_dataloader_Ok in Hdl as (splits & s' & _ & _ & _ & _ & Hbs & ->).
  cbn in Hs. subst s'. unfold loader_output. rewrite length_fmap.
  destruct (loader_batches_unsharded s (Some seed) size bs collate W entropy)
    as (stream & Hperm & ->).
  unfold batches. rewrite batches_from_count by (cbn; lia).
  by rewrite (Permutation_length Hperm).
Qed.

End BatchCount.

Lemma create_dataloader_returns_iff_witness :
  (∃ dl, create_dataloader example_hub "c4" collate_neel_c4_tokenized
           "train" 512 10000%positive 0 2 = Ok dl) ↔
  (∃ splits s, example_hub !! "c4" = Some splits ∧ splits !! "train" = Some s) ∧
  (0 ≤ 0)%Z ∧ (0 < 512)%Z ∧ (0 ≤ 2)%Z.
Proof.
  apply (create_dataloader_returns_iff example_hub "c4"
           collate_neel_c4_tokenized "train" 512 10000%positive 0 2).
Defined.

Lemma loader_batch_count_witness :
  length (loader_output (G:=Z) 0 (example_loader [example_stream] 2 3 7 2))
  = ((length example_stream + (Z.to_nat 2 - 1)) `div` Z.to_nat 2)%nat.
Proof.
  apply (loader_batch_count example_hub "c4" collate_neel_c4_tokenized
           "train" 2 3%positive 7 2).
  - reflexivity.
  - reflexivity.
Defined.
